(** * cgocopy: layout metadata, its registry and the architecture probe

    A shallow embedding of
    - [native/cgocopy_metadata.h]   (descriptor types and registration macros),
    - [native/metadata_registry.c]  (the intrusive, singly linked registry),
    - [native/arch_info.c]          (the architecture and alignment probe),
    - [pkg/cgocopy2/native2/cgocopy_macros.h] (the second generation macros),
    followed by the properties the specification states about them. *)

From stdpp Require Import gmap strings list.
From Stdlib Require Import ZArith Lia Sorted.

Open Scope Z_scope.

(* ===================================================================== *)
(** ** C strings *)
(* ===================================================================== *)

(** A [const char *] is [None] for [NULL]; otherwise it is the sequence of
    characters that precede the terminating zero byte. *)
Abbreviation cstring := (option string).

(** The C library's [strcmp]: the standard only fixes the sign of the
    result, which is the lexicographic order of the character codes. *)
Definition strcmp (a b : string) : Z :=
  match String.compare a b with
  | Eq => 0
  | Lt => -1
  | Gt => 1
  end.

(* ===================================================================== *)
(** ** C object types and their layout *)
(* ===================================================================== *)

(** The scalar types the sources declare members with. *)
Inductive scalar :=
| Bool | Char | SChar | UChar | Short | UShort | Int | UInt
| Long | ULong | LLong | ULLong | Float | Double
| Int8 | Int16 | Int32 | Int64 | UInt8 | UInt16 | UInt32 | UInt64
| SizeT | VoidPtr | CharPtr.

(** Object types: scalars, fixed-size arrays and structs.  A struct carries
    its typedef name and its members in declaration order.  The induction
    principle that reaches into the members is [ctype_nested_ind] below. *)
#[local] Unset Elimination Schemes.
Inductive ctype :=
| Tscalar (s : scalar)
| Tarray (elem : ctype) (len : Z)
| Tstruct (tag : string) (members : list (string * ctype)).
#[local] Set Elimination Schemes.

Inductive endianness := LittleEndian | BigEndian.

(** What the build platform fixes: size and alignment of every scalar type
    and the byte order of multi-byte integers. *)
Record abi := {
  sizeof_scalar : scalar → Z;
  alignof_scalar : scalar → Z;
  byte_order : endianness
}.

(** On every platform sizes and alignments are positive. *)
Record abi_ok (A : abi) : Prop := {
  size_pos : ∀ s, 0 < sizeof_scalar A s;
  align_pos : ∀ s, 0 < alignof_scalar A s
}.

(** The least multiple of [a] that is not below [n]. *)
Definition align_up (n a : Z) : Z := (n + a - 1) / a * a.

(** Modelled from the spec: the compiler's [_Alignof], [sizeof] and
    [offsetof] are not part of the repository.  Every member is placed at
    the first offset after the preceding member that is a multiple of its
    alignment (the gaps are the compiler's padding); a struct is as aligned
    as its most aligned member and its size includes the trailing padding up
    to a multiple of that alignment. *)
Fixpoint alignof (A : abi) (t : ctype) : Z :=
  match t with
  | Tscalar s => alignof_scalar A s
  | Tarray e _ => alignof A e
  | Tstruct _ ms =>
      (fix most_aligned (ms : list (string * ctype)) : Z :=
         match ms with
         | [] => 1
         | (_, ty) :: ms' => Z.max (alignof A ty) (most_aligned ms')
         end) ms
  end.

(** Modelled from the spec: the compiler's [sizeof]; an array is as large
    as its elements together, a struct ends with its trailing padding. *)
Fixpoint sizeof (A : abi) (t : ctype) : Z :=
  match t with
  | Tscalar s => sizeof_scalar A s
  | Tarray e n => sizeof A e * n
  | Tstruct _ ms =>
      align_up
        ((fix place (pos : Z) (ms : list (string * ctype)) : Z :=
            match ms with
            | [] => pos
            | (_, ty) :: ms' =>
                place (align_up pos (alignof A ty) + sizeof A ty) ms'
            end) 0 ms)
        (alignof A t)
  end.

(** Modelled from the spec: the alignment of the most aligned member,
    which is the alignment of the struct. *)
Fixpoint members_align (A : abi) (ms : list (string * ctype)) : Z :=
  match ms with
  | [] => 1
  | (_, ty) :: ms' => Z.max (alignof A ty) (members_align A ms')
  end.

(** Modelled from the spec: the end of the last member when the first one
    is placed from [pos]; the struct's size is this, padded. *)
Fixpoint members_end (A : abi) (pos : Z) (ms : list (string * ctype)) : Z :=
  match ms with
  | [] => pos
  | (_, ty) :: ms' =>
      members_end A (align_up pos (alignof A ty) + sizeof A ty) ms'
  end.

(** Modelled from the spec: the offset of member [f] when the first member
    is placed from [pos], every member at the next multiple of its
    alignment. *)
Fixpoint member_offset (A : abi) (pos : Z) (ms : list (string * ctype))
    (f : string) : option Z :=
  match ms with
  | [] => None
  | (g, ty) :: ms' =>
      if decide (g = f) then Some (align_up pos (alignof A ty))
      else member_offset A (align_up pos (alignof A ty) + sizeof A ty) ms' f
  end.

(** The declared type of member [f]. *)
Fixpoint member_lookup (ms : list (string * ctype)) (f : string)
  : option ctype :=
  match ms with
  | [] => None
  | (g, ty) :: ms' => if decide (g = f) then Some ty else member_lookup ms' f
  end.

(** Modelled from the spec: the compiler's [offsetof(t, f)]; [None] when
    the expression does not compile. *)
Definition offsetof (A : abi) (t : ctype) (f : string) : option Z :=
  match t with
  | Tstruct _ ms => member_offset A 0 ms f
  | _ => None
  end.

(** The type of member [f] of [t], which [sizeof] is applied to. *)
Definition member_type (t : ctype) (f : string) : option ctype :=
  match t with
  | Tstruct _ ms => member_lookup ms f
  | _ => None
  end.

(** Complete object types of ISO C: arrays have a positive length, structs
    have at least one member and no two members of the same name. *)
Fixpoint complete (t : ctype) : bool :=
  match t with
  | Tscalar _ => true
  | Tarray e n => (0 <? n) && complete e
  | Tstruct _ ms =>
      match ms with [] => false | _ :: _ => true end
      && (fix all (ms : list (string * ctype)) : bool :=
            match ms with
            | [] => true
            | (_, ty) :: ms' => complete ty && all ms'
            end) ms
      && bool_decide (NoDup (map fst ms))
  end.

(** The spelling of a type name, as the preprocessor's [#] operator sees
    it. *)
Definition spelling (t : ctype) : string :=
  match t with
  | Tscalar Bool => "_Bool"
  | Tscalar Char => "char"
  | Tscalar SChar => "signed char"
  | Tscalar UChar => "unsigned char"
  | Tscalar Short => "short"
  | Tscalar UShort => "unsigned short"
  | Tscalar Int => "int"
  | Tscalar UInt => "unsigned int"
  | Tscalar Long => "long"
  | Tscalar ULong => "unsigned long"
  | Tscalar LLong => "long long"
  | Tscalar ULLong => "unsigned long long"
  | Tscalar Float => "float"
  | Tscalar Double => "double"
  | Tscalar Int8 => "int8_t"
  | Tscalar Int16 => "int16_t"
  | Tscalar Int32 => "int32_t"
  | Tscalar Int64 => "int64_t"
  | Tscalar UInt8 => "uint8_t"
  | Tscalar UInt16 => "uint16_t"
  | Tscalar UInt32 => "uint32_t"
  | Tscalar UInt64 => "uint64_t"
  | Tscalar SizeT => "size_t"
  | Tscalar VoidPtr => "void*"
  | Tscalar CharPtr => "char*"
  | Tarray _ _ => EmptyString
  | Tstruct tag _ => tag
  end.

(** The integer types among the scalars. *)
Definition is_integer (t : ctype) : bool :=
  match t with
  | Tscalar (Float | Double | VoidPtr | CharPtr) => false
  | Tscalar _ => true
  | _ => false
  end.

(** Conversion to [size_t]: reduction modulo [SIZE_MAX + 1]. *)
Definition size_t_modulus (A : abi) : Z := 2 ^ (8 * sizeof_scalar A SizeT).
Definition to_size_t (A : abi) (v : Z) : Z := v mod size_t_modulus A.

(** Two platforms of the System V family and a big-endian one. *)
Definition lp64_sizeof (s : scalar) : Z :=
  match s with
  | Bool | Char | SChar | UChar | Int8 | UInt8 => 1
  | Short | UShort | Int16 | UInt16 => 2
  | Int | UInt | Float | Int32 | UInt32 => 4
  | Long | ULong | LLong | ULLong | Double | Int64 | UInt64
  | SizeT | VoidPtr | CharPtr => 8
  end.

Definition ilp32_sizeof (s : scalar) : Z :=
  match s with
  | Bool | Char | SChar | UChar | Int8 | UInt8 => 1
  | Short | UShort | Int16 | UInt16 => 2
  | Int | UInt | Float | Int32 | UInt32
  | Long | ULong | SizeT | VoidPtr | CharPtr => 4
  | LLong | ULLong | Double | Int64 | UInt64 => 8
  end.

(** On i386 the eight-byte scalars are aligned to four bytes inside
    structs. *)
Definition i386_alignof (s : scalar) : Z := Z.min (ilp32_sizeof s) 4.

Definition x86_64 : abi :=
  {| sizeof_scalar := lp64_sizeof; alignof_scalar := lp64_sizeof;
     byte_order := LittleEndian |}.

Definition i386 : abi :=
  {| sizeof_scalar := ilp32_sizeof; alignof_scalar := i386_alignof;
     byte_order := LittleEndian |}.

Definition s390x : abi :=
  {| sizeof_scalar := lp64_sizeof; alignof_scalar := lp64_sizeof;
     byte_order := BigEndian |}.

(* ===================================================================== *)
(** ** Descriptor types of [cgocopy_metadata.h] *)
(* ===================================================================== *)

Inductive cgocopy_field_kind :=
| CGOCOPY_FIELD_PRIMITIVE_KIND
| CGOCOPY_FIELD_POINTER_KIND
| CGOCOPY_FIELD_STRING_KIND
| CGOCOPY_FIELD_ARRAY_KIND
| CGOCOPY_FIELD_STRUCT_KIND.

(** [cgocopy_field_info]; the [size_t] members are integers. *)
Record cgocopy_field_info := {
  f_offset : Z;
  f_size : Z;
  f_type_name : cstring;
  f_kind : cgocopy_field_kind;
  f_elem_type : cstring;
  f_elem_count : Z;
  f_is_string : bool
}.

(** [cgocopy_struct_info]; the [fields] pointer and the array it points to
    are the list [s_fields]. *)
Record cgocopy_struct_info := {
  s_name : cstring;
  s_size : Z;
  s_alignment : Z;
  s_field_count : Z;
  s_fields : list cgocopy_field_info
}.

(* ===================================================================== *)
(** ** The registry of [metadata_registry.c] *)
(* ===================================================================== *)

(** Registry nodes are objects owned by the caller and linked in place, so
    they live in a store indexed by address.  A node pointer is [None] for
    [NULL].  Descriptors are [const] objects: a pointer to one is modelled
    by the descriptor it points to. *)
Abbreviation addr := positive.

Record cgocopy_struct_registry_node := {
  info : option cgocopy_struct_info;
  next : option addr
}.

(** The part of the program state the registry functions touch: the node
    objects and the file-scope variable [cgocopy_registry_head]. *)
Record registry := {
  nodes : gmap addr cgocopy_struct_registry_node;
  cgocopy_registry_head : option addr
}.

(** What a call does: it returns, it is still inside its loop when the
    fuel is used up, or it goes through a pointer to no object. *)
Inductive outcome (A : Type) :=
| Returns (a : A)
| OutOfFuel
| Fault.
Arguments Returns {A} a.
Arguments OutOfFuel {A}.
Arguments Fault {A}.

(** The initial value of the file-scope variable, over any node store. *)
Definition registry_init (h : gmap addr cgocopy_struct_registry_node) : registry :=
  {| nodes := h; cgocopy_registry_head := None |}.

(** [void cgocopy_registry_add(cgocopy_struct_registry_node *node)] *)
Definition cgocopy_registry_add (node : option addr) (st : registry)
  : outcome registry :=
  match node with
  | None => Returns st
  | Some a =>
      match nodes st !! a with
      | None => Fault
      | Some n =>
          Returns
            {| nodes := <[a := {| info := info n;
                                  next := cgocopy_registry_head st |}]> (nodes st);
               cgocopy_registry_head := Some a |}
      end
  end.

(** The loop condition
    [cursor->info != NULL && cursor->info->name != NULL &&
     strcmp(cursor->info->name, name) == 0]. *)
Definition node_matches (n : cgocopy_struct_registry_node) (name : string) : bool :=
  match info n with
  | None => false
  | Some d =>
      match s_name d with
      | None => false
      | Some nm => strcmp nm name =? 0
      end
  end.

(** The [while (cursor != NULL)] loop; one unit of fuel per iteration. *)
Fixpoint lookup_loop (fuel : nat) (h : gmap addr cgocopy_struct_registry_node)
    (cursor : option addr) (name : string)
  : outcome (option cgocopy_struct_info) :=
  match cursor with
  | None => Returns None
  | Some a =>
      match fuel with
      | O => OutOfFuel
      | S fuel' =>
          match h !! a with
          | None => Fault
          | Some n =>
              if node_matches n name then Returns (info n)
              else lookup_loop fuel' h (next n) name
          end
      end
  end.

(** [const cgocopy_struct_info *cgocopy_lookup_struct_info(const char *name)] *)
Definition cgocopy_lookup_struct_info (fuel : nat) (st : registry)
    (name : cstring) : outcome (option cgocopy_struct_info) :=
  match name with
  | None => Returns None
  | Some q => lookup_loop fuel (nodes st) (cgocopy_registry_head st) q
  end.

(** The call returns [r]: some amount of fuel is enough. *)
Definition lookup_returns (st : registry) (name : cstring)
    (r : option cgocopy_struct_info) : Prop :=
  ∃ fuel, cgocopy_lookup_struct_info fuel st name = Returns r.

(** Nodes linked into the chain that starts at [cursor]. *)
Inductive linked (h : gmap addr cgocopy_struct_registry_node)
  : option addr → addr → Prop :=
| linked_here a n :
    h !! a = Some n → linked h (Some a) a
| linked_later a n b :
    h !! a = Some n → linked h (next n) b → linked h (Some a) b.

(** The chain that starts at [cursor] ends in [NULL] after the nodes [l]. *)
Inductive chain (h : gmap addr cgocopy_struct_registry_node)
  : option addr → list addr → Prop :=
| chain_null : chain h None []
| chain_node a n l :
    h !! a = Some n → chain h (next n) l → chain h (Some a) (a :: l).

(** A descriptor is registered under [q]: a linked node carries a
    descriptor whose name is the string [q]. *)
Definition registered (st : registry) (q : string) : Prop :=
  ∃ a n d, linked (nodes st) (cgocopy_registry_head st) a ∧
           nodes st !! a = Some n ∧ info n = Some d ∧ s_name d = Some q.

(* ===================================================================== *)
(** ** The registration macros of [cgocopy_metadata.h] *)
(* ===================================================================== *)

(** Macro arguments that are only stringified ([c_type], [elem_type],
    [nested_type]) are strings; [struct_type] is both stringified and used
    as a type, so it is a [ctype], whose spelling is its typedef name.  A
    macro whose expansion does not compile gives [None]. *)
Definition CGOCOPY_INTERNAL_FIELD_INIT (A : abi)
    (kind_value : cgocopy_field_kind) (struct_type : ctype)
    (field_name : string) (type_literal elem_literal : cstring)
    (elem_count_value : Z) (string_flag : bool) : option cgocopy_field_info :=
  off ← offsetof A struct_type field_name;
  ty ← member_type struct_type field_name;
  Some {| f_offset := off;
          f_size := sizeof A ty;
          f_type_name := type_literal;
          f_kind := kind_value;
          f_elem_type := elem_literal;
          f_elem_count := to_size_t A elem_count_value;
          f_is_string := string_flag |}.

Definition CGOCOPY_FIELD_PRIMITIVE (A : abi) (struct_type : ctype)
    (field_name c_type : string) : option cgocopy_field_info :=
  CGOCOPY_INTERNAL_FIELD_INIT A CGOCOPY_FIELD_PRIMITIVE_KIND struct_type
    field_name (Some c_type) None 0 false.

Definition CGOCOPY_FIELD_POINTER (A : abi) (struct_type : ctype)
    (field_name c_type : string) : option cgocopy_field_info :=
  CGOCOPY_INTERNAL_FIELD_INIT A CGOCOPY_FIELD_POINTER_KIND struct_type
    field_name (Some c_type) None 0 false.

Definition CGOCOPY_FIELD_STRING (A : abi) (struct_type : ctype)
    (field_name : string) : option cgocopy_field_info :=
  CGOCOPY_INTERNAL_FIELD_INIT A CGOCOPY_FIELD_STRING_KIND struct_type
    field_name (Some "char*"%string) None 0 true.

Definition CGOCOPY_FIELD_STRUCT (A : abi) (struct_type : ctype)
    (field_name nested_type : string) : option cgocopy_field_info :=
  CGOCOPY_INTERNAL_FIELD_INIT A CGOCOPY_FIELD_STRUCT_KIND struct_type
    field_name (Some nested_type) None 0 false.

Definition CGOCOPY_FIELD_ARRAY (A : abi) (struct_type : ctype)
    (field_name elem_type : string) (elem_count : Z)
  : option cgocopy_field_info :=
  CGOCOPY_INTERNAL_FIELD_INIT A CGOCOPY_FIELD_ARRAY_KIND struct_type
    field_name (Some elem_type) (Some elem_type) elem_count false.

Definition CGOCOPY_FIELD_ARRAY_STRUCT (A : abi) (struct_type : ctype)
    (field_name nested_type : string) (elem_count : Z)
  : option cgocopy_field_info :=
  CGOCOPY_INTERNAL_FIELD_INIT A CGOCOPY_FIELD_ARRAY_KIND struct_type
    field_name (Some nested_type) (Some nested_type) elem_count false.

(** The entries a struct block may list for member [field_name]: the
    expansion of one of the six field macros at [struct_type]. *)
Inductive field_entry (A : abi) (struct_type : ctype) (field_name : string)
  : cgocopy_field_info → Prop :=
| entry_primitive c_type fi :
    CGOCOPY_FIELD_PRIMITIVE A struct_type field_name c_type = Some fi →
    field_entry A struct_type field_name fi
| entry_pointer c_type fi :
    CGOCOPY_FIELD_POINTER A struct_type field_name c_type = Some fi →
    field_entry A struct_type field_name fi
| entry_string fi :
    CGOCOPY_FIELD_STRING A struct_type field_name = Some fi →
    field_entry A struct_type field_name fi
| entry_struct nested_type fi :
    CGOCOPY_FIELD_STRUCT A struct_type field_name nested_type = Some fi →
    field_entry A struct_type field_name fi
| entry_array elem_type elem_count fi :
    CGOCOPY_FIELD_ARRAY A struct_type field_name elem_type elem_count
      = Some fi →
    field_entry A struct_type field_name fi
| entry_array_struct nested_type elem_count fi :
    CGOCOPY_FIELD_ARRAY_STRUCT A struct_type field_name nested_type elem_count
      = Some fi →
    field_entry A struct_type field_name fi.

(** [CGOCOPY_STRUCT_BEGIN(struct_type) ... CGOCOPY_STRUCT_END(struct_type)]:
    the descriptor object built around the listed field entries.  The
    quotient of the two [sizeof]s is the number of entries. *)
Definition CGOCOPY_STRUCT_END (A : abi) (struct_type : ctype)
    (cgocopy_fields : list cgocopy_field_info) : cgocopy_struct_info :=
  {| s_name := Some (spelling struct_type);
     s_size := sizeof A struct_type;
     s_alignment := alignof A struct_type;
     s_field_count := Z.of_nat (length cgocopy_fields);
     s_fields := cgocopy_fields |}.

(** The constructor function [cgocopy_register_<struct_type>] that
    [CGOCOPY_STRUCT_END] defines; [node] is the address of the static node
    object of the block and [d] its descriptor. *)
Definition cgocopy_register (node : addr) (d : cgocopy_struct_info)
    (st : registry) : outcome registry :=
  cgocopy_registry_add (Some node)
    {| nodes := <[node := {| info := Some d; next := None |}]> (nodes st);
       cgocopy_registry_head := cgocopy_registry_head st |}.









(* ===================================================================== *)
(** ** The second generation macros of [cgocopy_macros.h] *)
(* ===================================================================== *)

Module Macros2.

(** This header has its own [cgocopy_field_info]. *)
Record cgocopy_field_info := {
  name : cstring;
  type : cstring;
  offset : Z;
  size : Z;
  is_pointer : Z;
  is_array : Z;
  array_len : Z
}.

(** [CGOCOPY_ARRAY_FIELD(structtype, field, elemtype)]; [elemtype] is
    stringified and is the operand of a [sizeof]. *)
Definition CGOCOPY_ARRAY_FIELD (A : abi) (structtype : ctype)
    (field : string) (elemtype : ctype) : option cgocopy_field_info :=
  off ← offsetof A structtype field;
  ty ← member_type structtype field;
  Some {| name := Some field;
          type := Some (spelling elemtype +:+ "[]");
          offset := off;
          size := sizeof A ty;
          is_pointer := 0;
          is_array := 1;
          array_len := sizeof A ty / sizeof A elemtype |}.

(** The standard type a scalar type name stands for: [<stdint.h>] and
    [<stddef.h>] of the platform make the exact-width names and [size_t]
    typedefs of standard types; a standard type stands for itself.  The two
    tables are those of glibc on x86-64 and on i386. *)
Definition lp64_typedefs (s : scalar) : scalar :=
  match s with
  | Int8 => SChar | UInt8 => UChar
  | Int16 => Short | UInt16 => UShort
  | Int32 => Int | UInt32 => UInt
  | Int64 => Long | UInt64 => ULong
  | SizeT => ULong
  | _ => s
  end.

Definition ilp32_typedefs (s : scalar) : scalar :=
  match s with
  | Int8 => SChar | UInt8 => UChar
  | Int16 => Short | UInt16 => UShort
  | Int32 => Int | UInt32 => UInt
  | Int64 => LLong | UInt64 => ULLong
  | SizeT => UInt
  | _ => s
  end.

(** A typedef has the size of the type it stands for. *)
Definition typedefs_ok (A : abi) (T : scalar → scalar) : Prop :=
  ∀ s, sizeof_scalar A (T s) = sizeof_scalar A s.

(** The type that [_Generic] matches its associations against: the type
    of the controlling expression after lvalue conversion, so a typedef
    name is the type it stands for and an array is a pointer to its first
    element.  [None] is any type that is none of the scalars of this
    development, a struct or a pointer to anything but [char] and [void];
    no member is a [const char *], so that association is never taken. *)
Definition controlling_type (T : scalar → scalar) (x : ctype)
  : option scalar :=
  match x with
  | Tscalar s => Some (T s)
  | Tarray (Tscalar s) _ =>
      match T s with
      | Char => Some CharPtr
      | _ => None
      end
  | _ => None
  end.

(** [CGOCOPY_TYPE_NAME(x)] *)
Definition CGOCOPY_TYPE_NAME (T : scalar → scalar) (x : ctype) : string :=
  match controlling_type T x with
  | Some Bool => "bool"
  | Some Char => "int8"
  | Some SChar => "int8"
  | Some UChar => "uint8"
  | Some Short => "int16"
  | Some UShort => "uint16"
  | Some Int => "int32"
  | Some UInt => "uint32"
  | Some Long => "int64"
  | Some ULong => "uint64"
  | Some LLong => "int64"
  | Some ULLong => "uint64"
  | Some Float => "float32"
  | Some Double => "float64"
  | Some CharPtr => "string"
  | _ => "struct"
  end.

(** [CGOCOPY_TYPE_SIZE(x)]: the [sizeof] of the matched association's type;
    the default is [sizeof(x)], whose operand is not converted. *)
Definition CGOCOPY_TYPE_SIZE (A : abi) (T : scalar → scalar) (x : ctype)
  : Z :=
  match controlling_type T x with
  | Some (( Bool | Char | SChar | UChar | Short | UShort | Int | UInt
          | Long | ULong | LLong | ULLong | Float | Double | CharPtr) as s) =>
      sizeof_scalar A s
  | _ => sizeof A x
  end.

(** [CGOCOPY_IS_POINTER_TYPE(x)] *)
Definition CGOCOPY_IS_POINTER_TYPE (T : scalar → scalar) (x : ctype) : Z :=
  match controlling_type T x with
  | Some CharPtr => 1
  | Some VoidPtr => 1
  | _ => 0
  end.

(** [CGOCOPY_IS_ARRAY_INTERNAL(type_sample)] *)
Definition CGOCOPY_IS_ARRAY_INTERNAL (A : abi) (T : scalar → scalar)
    (type_sample : ctype) : Z :=
  if (CGOCOPY_IS_POINTER_TYPE T type_sample =? 0)
     && (sizeof A (Tscalar VoidPtr) <? sizeof A type_sample)
  then 1 else 0.

(** [CGOCOPY_SAFE_ARRAY_LEN(arr, elem_type)] *)
Definition CGOCOPY_SAFE_ARRAY_LEN (A : abi) (arr elem_type : ctype) : Z :=
  sizeof A arr / sizeof A elem_type.

(** [CGOCOPY_FIELD(structtype, field)] *)
Definition CGOCOPY_FIELD (A : abi) (T : scalar → scalar) (structtype : ctype)
    (field : string) : option cgocopy_field_info :=
  off ← offsetof A structtype field;
  ty ← member_type structtype field;
  Some {| name := Some field;
          type := Some (CGOCOPY_TYPE_NAME T ty);
          offset := off;
          size := sizeof A ty;
          is_pointer := CGOCOPY_IS_POINTER_TYPE T ty;
          is_array := 0;
          array_len := 0 |}.

(** This header's [cgocopy_struct_info]; the [fields] pointer and the array
    it points to are the list [fields]. *)
Record cgocopy_struct_info := {
  struct_name : cstring;
  struct_size : Z;
  field_count : Z;
  fields : list cgocopy_field_info
}.


(** The entries [CGOCOPY_STRUCT] may list for member [field]: the
    expansion of one of the two field macros at [structtype]. *)
Inductive field_entry (A : abi) (T : scalar → scalar) (structtype : ctype)
    (field : string) : cgocopy_field_info → Prop :=
| entry_field fi :
    CGOCOPY_FIELD A T structtype field = Some fi →
    field_entry A T structtype field fi
| entry_array_field elemtype fi :
    CGOCOPY_ARRAY_FIELD A structtype field elemtype = Some fi →
    field_entry A T structtype field fi.

(** The platforms on which the widths in the names of [CGOCOPY_TYPE_NAME]
    are the sizes of the standard types they are given to. *)
Definition widths_as_named (A : abi) : Prop :=
  sizeof_scalar A Char = 1 ∧ sizeof_scalar A SChar = 1 ∧
  sizeof_scalar A UChar = 1 ∧
  sizeof_scalar A Short = 2 ∧ sizeof_scalar A UShort = 2 ∧
  sizeof_scalar A Int = 4 ∧ sizeof_scalar A UInt = 4 ∧
  sizeof_scalar A Long = 8 ∧ sizeof_scalar A ULong = 8 ∧
  sizeof_scalar A LLong = 8 ∧ sizeof_scalar A ULLong = 8 ∧
  sizeof_scalar A Float = 4 ∧ sizeof_scalar A Double = 8.

End Macros2.

(* ===================================================================== *)
(** ** The architecture probe of [arch_info.c] *)
(* ===================================================================== *)

Definition AlignmentTestStruct : ctype :=
  Tstruct "AlignmentTestStruct"
    [ ("i8", Tscalar Int8);
      ("i32", Tscalar Int32);
      ("i64", Tscalar Int64);
      ("i16", Tscalar Int16);
      ("f64", Tscalar Double);
      ("i8_2", Tscalar Int8);
      ("ptr", Tscalar VoidPtr);
      ("u8", Tscalar UInt8);
      ("u32", Tscalar UInt32);
      ("u16", Tscalar UInt16);
      ("u64", Tscalar UInt64);
      ("f32", Tscalar Float);
      ("charptr", Tscalar CharPtr);
      ("sizet", Tscalar SizeT) ]%string.

Record ArchitectureInfo := {
  int8_size : Z;
  int16_size : Z;
  int32_size : Z;
  int64_size : Z;
  uint8_size : Z;
  uint16_size : Z;
  uint32_size : Z;
  uint64_size : Z;
  float_size : Z;
  double_size : Z;
  pointer_size : Z;
  sizet_size : Z;
  int8_offset : Z;
  int16_offset : Z;
  int32_offset : Z;
  int64_offset : Z;
  uint8_offset : Z;
  uint16_offset : Z;
  uint32_offset : Z;
  uint64_offset : Z;
  float_offset : Z;
  double_offset : Z;
  pointer_offset : Z;
  charptr_offset : Z;
  sizet_offset : Z;
  test_struct_size : Z;
  is_64bit : Z;
  is_little_endian : Z
}.

(** The members of [ArchitectureInfo], to address the local object [info]
    of [getArchitectureInfo] member by member. *)
Inductive arch_member :=
| M_int8_size
| M_int16_size
| M_int32_size
| M_int64_size
| M_uint8_size
| M_uint16_size
| M_uint32_size
| M_uint64_size
| M_float_size
| M_double_size
| M_pointer_size
| M_sizet_size
| M_int8_offset
| M_int16_offset
| M_int32_offset
| M_int64_offset
| M_uint8_offset
| M_uint16_offset
| M_uint32_offset
| M_uint64_offset
| M_float_offset
| M_double_offset
| M_pointer_offset
| M_charptr_offset
| M_sizet_offset
| M_test_struct_size
| M_is_64bit
| M_is_little_endian.

#[global] Instance arch_member_eq_dec : EqDecision arch_member.
Proof. solve_decision. Defined.

(** [info.m = v;] *)
Definition assign (m : arch_member) (v : Z) (obj : arch_member → Z)
  : arch_member → Z :=
  fun m' => if decide (m = m') then v else obj m'.

(** Reading the whole object, as [return info;] does. *)
Definition load_info (obj : arch_member → Z) : ArchitectureInfo :=
  {| int8_size := obj M_int8_size;
     int16_size := obj M_int16_size;
     int32_size := obj M_int32_size;
     int64_size := obj M_int64_size;
     uint8_size := obj M_uint8_size;
     uint16_size := obj M_uint16_size;
     uint32_size := obj M_uint32_size;
     uint64_size := obj M_uint64_size;
     float_size := obj M_float_size;
     double_size := obj M_double_size;
     pointer_size := obj M_pointer_size;
     sizet_size := obj M_sizet_size;
     int8_offset := obj M_int8_offset;
     int16_offset := obj M_int16_offset;
     int32_offset := obj M_int32_offset;
     int64_offset := obj M_int64_offset;
     uint8_offset := obj M_uint8_offset;
     uint16_offset := obj M_uint16_offset;
     uint32_offset := obj M_uint32_offset;
     uint64_offset := obj M_uint64_offset;
     float_offset := obj M_float_offset;
     double_offset := obj M_double_offset;
     pointer_offset := obj M_pointer_offset;
     charptr_offset := obj M_charptr_offset;
     sizet_offset := obj M_sizet_offset;
     test_struct_size := obj M_test_struct_size;
     is_64bit := obj M_is_64bit;
     is_little_endian := obj M_is_little_endian |}.

(** [offsetof(AlignmentTestStruct, f)] for a member [f] of the struct. *)
Definition test_offset (A : abi) (f : string) : Z :=
  default 0 (offsetof A AlignmentTestStruct f).

(** Modelled from the spec: the bytes of a [uint32_t] object in memory
    order are fixed by the platform, not by the repository; the least
    significant byte comes first on a little-endian platform and last on a
    big-endian one. *)
Definition uint32_bytes (e : endianness) (v : Z) : list Z :=
  let byte (k : Z) := Z.land (Z.shiftr v (8 * k)) 0xff in
  match e with
  | LittleEndian => [byte 0; byte 1; byte 2; byte 3]
  | BigEndian => [byte 3; byte 2; byte 1; byte 0]
  end.

(** [test.c[0]] after [test = {.i = 0x01020304}]: the two members of the
    union share their storage. *)
Definition endian_test_c0 (A : abi) : Z :=
  default 0 (uint32_bytes (byte_order A) 0x01020304 !! 0%nat).

(** The assignments to the members of [info], in program order. *)
Definition getArchitectureInfo_body (A : abi) : list (arch_member * Z) :=
  [ (M_int8_size, sizeof A (Tscalar Int8));
    (M_int16_size, sizeof A (Tscalar Int16));
    (M_int32_size, sizeof A (Tscalar Int32));
    (M_int64_size, sizeof A (Tscalar Int64));
    (M_uint8_size, sizeof A (Tscalar UInt8));
    (M_uint16_size, sizeof A (Tscalar UInt16));
    (M_uint32_size, sizeof A (Tscalar UInt32));
    (M_uint64_size, sizeof A (Tscalar UInt64));
    (M_float_size, sizeof A (Tscalar Float));
    (M_double_size, sizeof A (Tscalar Double));
    (M_pointer_size, sizeof A (Tscalar VoidPtr));
    (M_sizet_size, sizeof A (Tscalar SizeT));
    (M_int8_offset, test_offset A "i8");
    (M_int32_offset, test_offset A "i32");
    (M_int64_offset, test_offset A "i64");
    (M_int16_offset, test_offset A "i16");
    (M_double_offset, test_offset A "f64");
    (M_uint8_offset, test_offset A "u8");
    (M_pointer_offset, test_offset A "ptr");
    (M_uint16_offset, test_offset A "u16");
    (M_uint32_offset, test_offset A "u32");
    (M_uint64_offset, test_offset A "u64");
    (M_float_offset, test_offset A "f32");
    (M_charptr_offset, test_offset A "charptr");
    (M_sizet_offset, test_offset A "sizet");
    (M_test_struct_size, sizeof A AlignmentTestStruct);
    (M_is_64bit, if sizeof A (Tscalar VoidPtr) =? 8 then 1 else 0);
    (M_is_little_endian, if endian_test_c0 A =? 0x04 then 1 else 0) ].

(** [ArchitectureInfo getArchitectureInfo()].  The local [info] starts with
    indeterminate contents; the registry is the rest of the program state
    and is threaded through. *)
Definition getArchitectureInfo (A : abi) (indeterminate : arch_member → Z)
    (st : registry) : outcome (ArchitectureInfo * registry) :=
  let info :=
    fold_left (fun obj s => assign s.1 s.2 obj)
      (getArchitectureInfo_body A) indeterminate in
  Returns (load_info info, st).

(** [size_t calculateAlignment(size_t prev_end, size_t current_offset)];
    subtraction of [size_t] values wraps around. *)
Definition calculateAlignment (A : abi) (prev_end current_offset : Z) : Z :=
  if current_offset =? prev_end then 1
  else
    let padding := to_size_t A (current_offset - prev_end) in
    to_size_t A (current_offset - prev_end).

(* ===================================================================== *)
(** ** Fixture structs and registry states used as concrete instances *)
(* ===================================================================== *)

(** [User] of [pkg/cgocopy/integration/native/structs.h]. *)
Definition User : ctype :=
  Tstruct "User"
    [ ("user_id", Tscalar Int);
      ("username", Tscalar CharPtr);
      ("email", Tscalar CharPtr) ]%string.

(** [Student] of the same header. *)
Definition Student : ctype :=
  Tstruct "Student"
    [ ("student_id", Tscalar Int);
      ("name", Tscalar CharPtr);
      ("grades", Tarray (Tscalar Int) 5);
      ("scores", Tarray (Tscalar Float) 3) ]%string.

(** [UserDetails] and [User] of [examples/users/native/structs.h]. *)
Definition UserDetails : ctype :=
  Tstruct "UserDetails"
    [ ("full_name", Tscalar CharPtr);
      ("level", Tscalar UInt32);
      ("department", Tscalar CharPtr) ]%string.

Definition users_User : ctype :=
  Tstruct "User"
    [ ("id", Tscalar UInt32);
      ("email", Tscalar CharPtr);
      ("details", UserDetails);
      ("account_balance", Tscalar Double) ]%string.

(** [Point3D] of [pkg/cgocopy/integration/native/structs.h]. *)
Definition Point3D : ctype :=
  Tstruct "Point3D"
    [ ("x", Tscalar Double); ("y", Tscalar Double); ("z", Tscalar Double)
    ]%string.

(** Descriptors of these structs on x86-64, as the field macros of
    [cgocopy_metadata.h] fill them in. *)
Definition User_fields : list cgocopy_field_info :=
  [ {| f_offset := 0; f_size := 4; f_type_name := Some "int"%string;
       f_kind := CGOCOPY_FIELD_PRIMITIVE_KIND; f_elem_type := None;
       f_elem_count := 0; f_is_string := false |};
    {| f_offset := 8; f_size := 8; f_type_name := Some "char*"%string;
       f_kind := CGOCOPY_FIELD_STRING_KIND; f_elem_type := None;
       f_elem_count := 0; f_is_string := true |};
    {| f_offset := 16; f_size := 8; f_type_name := Some "char*"%string;
       f_kind := CGOCOPY_FIELD_STRING_KIND; f_elem_type := None;
       f_elem_count := 0; f_is_string := true |} ].

Definition users_User_fields : list cgocopy_field_info :=
  [ {| f_offset := 0; f_size := 4; f_type_name := Some "uint32_t"%string;
       f_kind := CGOCOPY_FIELD_PRIMITIVE_KIND; f_elem_type := None;
       f_elem_count := 0; f_is_string := false |};
    {| f_offset := 8; f_size := 8; f_type_name := Some "char*"%string;
       f_kind := CGOCOPY_FIELD_STRING_KIND; f_elem_type := None;
       f_elem_count := 0; f_is_string := true |};
    {| f_offset := 16; f_size := 24;
       f_type_name := Some "UserDetails"%string;
       f_kind := CGOCOPY_FIELD_STRUCT_KIND; f_elem_type := None;
       f_elem_count := 0; f_is_string := false |};
    {| f_offset := 40; f_size := 8; f_type_name := Some "double"%string;
       f_kind := CGOCOPY_FIELD_PRIMITIVE_KIND; f_elem_type := None;
       f_elem_count := 0; f_is_string := false |} ].

Definition Point3D_fields : list cgocopy_field_info :=
  [ {| f_offset := 0; f_size := 8; f_type_name := Some "double"%string;
       f_kind := CGOCOPY_FIELD_PRIMITIVE_KIND; f_elem_type := None;
       f_elem_count := 0; f_is_string := false |};
    {| f_offset := 8; f_size := 8; f_type_name := Some "double"%string;
       f_kind := CGOCOPY_FIELD_PRIMITIVE_KIND; f_elem_type := None;
       f_elem_count := 0; f_is_string := false |};
    {| f_offset := 16; f_size := 8; f_type_name := Some "double"%string;
       f_kind := CGOCOPY_FIELD_PRIMITIVE_KIND; f_elem_type := None;
       f_elem_count := 0; f_is_string := false |} ].

Definition User_info : cgocopy_struct_info :=
  CGOCOPY_STRUCT_END x86_64 User User_fields.
Definition users_User_info : cgocopy_struct_info :=
  CGOCOPY_STRUCT_END x86_64 users_User users_User_fields.
Definition Point3D_info : cgocopy_struct_info :=
  CGOCOPY_STRUCT_END x86_64 Point3D Point3D_fields.




(** Three static node objects, at addresses 1, 2 and 3, before any
    constructor has run. *)
Definition three_nodes : gmap addr cgocopy_struct_registry_node :=
  {[ 1%positive := {| info := Some User_info; next := None |};
     2%positive := {| info := Some users_User_info; next := None |};
     3%positive := {| info := Some Point3D_info; next := None |} ]}.

(** The state after [k] calls of [cgocopy_registry_add] on the listed
    node pointers, first to last; a call that faults leaves the state. *)
Definition add_all (ps : list (option addr)) (st : registry) : registry :=
  fold_left
    (fun st p =>
       match cgocopy_registry_add p st with
       | Returns st' => st'
       | _ => st
       end) ps st.

(** Nodes 3, 2, 1 registered in this order: the chain is 1, 2, 3. *)
Definition registry_123 : registry :=
  add_all [Some 3; Some 2; Some 1]%positive (registry_init three_nodes).

(** Node 1 registered twice in a row. *)
Definition registry_twice : registry :=
  add_all [Some 1; Some 1]%positive (registry_init three_nodes).

(** Node 3 alone, and node 2 registered once more on top of 1, 2, 3. *)
Definition registry_3 : registry :=
  add_all [Some 3%positive] (registry_init three_nodes).

Definition registry_relinked : registry :=
  add_all [Some 2%positive] registry_123.

(** [GameObject] of [pkg/cgocopy/integration/native/structs.h]. *)
Definition GameObject : ctype :=
  Tstruct "GameObject"
    [ ("name", Tscalar CharPtr);
      ("position", Point3D);
      ("velocity", Point3D) ]%string.


(* ===================================================================== *)
(** ** Sequences of registrations *)
(* ===================================================================== *)

(** The descriptor pointer held by the node at [a]; [None] as well when
    there is no node. *)
Definition info_at (h : gmap addr cgocopy_struct_registry_node) (a : addr)
  : option cgocopy_struct_info :=
  n ← h !! a; info n.

(** The first descriptor pointer of the list that passes the test of the
    lookup loop for the name [q]; null pointers and descriptors without a
    name are passed over. *)
Fixpoint newest_match (q : string) (ds : list (option cgocopy_struct_info))
  : option cgocopy_struct_info :=
  match ds with
  | [] => None
  | d :: ds' =>
      if node_matches {| info := d; next := None |} q then d
      else newest_match q ds'
  end.

(** The startup phase: the constructor functions of the listed blocks, each
    given by the address of its static node and its descriptor, run one
    after the other. *)
Definition run_constructors (bs : list (addr * cgocopy_struct_info))
    (st : registry) : registry :=
  fold_left
    (fun st b =>
       match cgocopy_register b.1 b.2 st with
       | Returns st' => st'
       | _ => st
       end) bs st.

(* ===================================================================== *)
(** ** Allocated objects *)
(* ===================================================================== *)

(** The objects obtained from [malloc], [calloc] and [strdup], by address,
    and the number of allocation requests made so far. *)
Record memory (object : Type) := {
  objects : gmap addr object;
  requests : nat
}.
Arguments objects {object} m.
Arguments requests {object} m.

(** The C library's allocator is not part of the repository: what a
    request returns, the null pointer or an address, is left to a function
    of the number of earlier requests and of the addresses in use. *)
Abbreviation allocator := (nat → gset addr → option addr).

(** An allocator never hands out an address that is in use. *)
Definition allocator_ok (alloc : allocator) : Prop :=
  ∀ n (live : gset addr) a, alloc n live = Some a → a ∉ live.

(** Code that runs on the memory; it returns a value and the memory it
    leaves, or faults. *)
Definition prog (object A : Type) : Type :=
  memory object → outcome (A * memory object).

Definition prog_ret {object A : Type} (a : A) : prog object A :=
  λ m, Returns (a, m).

Definition prog_bind {object A B : Type} (c : prog object A)
    (k : A → prog object B) : prog object B :=
  λ m,
    match c m with
    | Returns (a, m') => k a m'
    | OutOfFuel => OutOfFuel
    | Fault => Fault
    end.

Definition prog_fault {object A : Type} : prog object A := λ _, Fault.

Declare Scope prog_scope.
Delimit Scope prog_scope with prog.
Notation "'let*' x := c 'in' k" := (prog_bind c (λ x, k))
  (at level 10, x name, c at level 100, k at level 200) : prog_scope.
Notation "c ;; k" := (prog_bind c (λ _, k))
  (at level 100, k at level 200, right associativity) : prog_scope.
Open Scope prog_scope.

(** An allocation request for an object with the contents [init]. *)
Definition allocate {object} (alloc : allocator) (init : object)
  : prog object (option addr) :=
  λ m,
    let m' := {| objects := objects m; requests := S (requests m) |} in
    match alloc (requests m) (dom (objects m)) with
    | None => Returns (None, m')
    | Some a =>
        Returns (Some a, {| objects := <[a := init]> (objects m);
                            requests := S (requests m) |})
    end.

(** [free(p)]: nothing for the null pointer; a pointer to no allocated
    object is a fault. *)
Definition free {object} (p : option addr) : prog object unit :=
  λ m,
    match p with
    | None => Returns (tt, m)
    | Some a =>
        match objects m !! a with
        | None => Fault
        | Some _ =>
            Returns (tt, {| objects := delete a (objects m);
                            requests := requests m |})
        end
    end.

(** Reading and writing the object [p] points to. *)
Definition load {object} (p : option addr) : prog object object :=
  λ m,
    match p with
    | None => Fault
    | Some a =>
        match objects m !! a with
        | None => Fault
        | Some o => Returns (o, m)
        end
    end.

Definition store {object} (p : option addr) (o : object) : prog object unit :=
  λ m,
    match p with
    | None => Fault
    | Some a =>
        match objects m !! a with
        | None => Fault
        | Some _ =>
            Returns (tt, {| objects := <[a := o]> (objects m);
                            requests := requests m |})
        end
    end.

(** [strdup(s)]: a fault for the null pointer; otherwise an allocation
    request for a copy of the string. *)
Definition strdup {object} (alloc : allocator) (chars : string → object)
    (s : cstring) : prog object (option addr) :=
  match s with
  | None => prog_fault
  | Some str => allocate alloc (chars str)
  end.

(* ===================================================================== *)
(** ** The constructors and destructors of
       [pkg/cgocopy2/integration/native/structs.c] *)
(* ===================================================================== *)

Module Integration.

(** The values of the structs of [structs.h]; a [double] is left
    uninterpreted. *)
Record User_value := {
  user_id : Z;
  username : option addr;
  email : option addr
}.

Record Point3D_value (double : Type) := {
  x : double;
  y : double;
  z : double
}.
Arguments x {double} p.
Arguments y {double} p.
Arguments z {double} p.

Record GameObject_value (double : Type) := {
  name : option addr;
  position : Point3D_value double;
  velocity : Point3D_value double
}.
Arguments name {double} g.
Arguments position {double} g.
Arguments velocity {double} g.

(** What an allocated object holds. *)
Inductive object (double : Type) :=
| CharArray (s : string)
| User_object (u : User_value)
| GameObject_object (g : GameObject_value double).
Arguments CharArray {double} s.
Arguments User_object {double} u.
Arguments GameObject_object {double} g.

(** [u->member = v;] for a pointer to [User]. *)
Definition assign_User {double} (u : option addr)
    (f : User_value → User_value) : prog (object double) unit :=
  let* o := load u in
  match o with
  | User_object r => store u (User_object (f r))
  | _ => prog_fault
  end.

(** [obj->member = v;] for a pointer to [GameObject]. *)
Definition assign_GameObject {double} (obj : option addr)
    (f : GameObject_value double → GameObject_value double)
  : prog (object double) unit :=
  let* o := load obj in
  match o with
  | GameObject_object g => store obj (GameObject_object (f g))
  | _ => prog_fault
  end.

(** [User* create_user(int id, const char* username, const char* email)];
    [indeterminate] is what the memory from [malloc] holds at first. *)
Definition create_user {double} (alloc : allocator)
    (indeterminate : User_value) (id : Z) (username_arg email_arg : cstring)
  : prog (object double) (option addr) :=
  let* u := allocate alloc (User_object indeterminate) in
  assign_User u (λ r, {| user_id := id; username := username r;
                              email := email r |}) ;;
  let* p := strdup alloc CharArray username_arg in
  assign_User u (λ r, {| user_id := user_id r; username := p;
                              email := email r |}) ;;
  let* q := strdup alloc CharArray email_arg in
  assign_User u (λ r, {| user_id := user_id r; username := username r;
                              email := q |}) ;;
  prog_ret u.

(** [void free_user(User* u)] *)
Definition free_user {double} (u : option addr) : prog (object double) unit :=
  match u with
  | None => prog_ret tt
  | Some _ =>
      let* o := load u in
      match o with
      | User_object r =>
          free (username r) ;;
          free (email r) ;;
          free u
      | _ => prog_fault
      end
  end.

(** [GameObject* create_game_object(const char* name, double px, ...)] *)
Definition create_game_object {double} (alloc : allocator)
    (indeterminate : GameObject_value double) (name_arg : cstring)
    (px py pz vx vy vz : double) : prog (object double) (option addr) :=
  let* obj := allocate alloc (GameObject_object indeterminate) in
  let* p := strdup alloc CharArray name_arg in
  assign_GameObject obj
        (λ g, {| name := p; position := position g;
                 velocity := velocity g |}) ;;
  assign_GameObject obj
        (λ g, {| name := name g;
                 position := {| x := px; y := y (position g);
                                z := z (position g) |};
                 velocity := velocity g |}) ;;
  assign_GameObject obj
        (λ g, {| name := name g;
                 position := {| x := x (position g); y := py;
                                z := z (position g) |};
                 velocity := velocity g |}) ;;
  assign_GameObject obj
        (λ g, {| name := name g;
                 position := {| x := x (position g); y := y (position g);
                                z := pz |};
                 velocity := velocity g |}) ;;
  assign_GameObject obj
        (λ g, {| name := name g; position := position g;
                 velocity := {| x := vx; y := y (velocity g);
                                z := z (velocity g) |} |}) ;;
  assign_GameObject obj
        (λ g, {| name := name g; position := position g;
                 velocity := {| x := x (velocity g); y := vy;
                                z := z (velocity g) |} |}) ;;
  assign_GameObject obj
        (λ g, {| name := name g; position := position g;
                 velocity := {| x := x (velocity g); y := y (velocity g);
                                z := vz |} |}) ;;
  prog_ret obj.

(** [void free_game_object(GameObject* obj)] *)
Definition free_game_object {double} (obj : option addr)
  : prog (object double) unit :=
  match obj with
  | None => prog_ret tt
  | Some _ =>
      let* o := load obj in
      match o with
      | GameObject_object g =>
          free (name g) ;;
          free obj
      | _ => prog_fault
      end
  end.

(** Memory with the object [o] added at [p], if [p] is not null. *)
Definition with_object {double} (p : option addr) (o : object double)
    (objs : gmap addr (object double)) : gmap addr (object double) :=
  match p with
  | None => objs
  | Some a => <[a := o]> objs
  end.

End Integration.

(** An allocator for concrete runs: request number [n] gets the address
    [n + 1], and fails if that address is in use. *)
Definition counting_allocator : allocator :=
  λ n live,
    if decide (Pos.of_succ_nat n ∈ live) then None
    else Some (Pos.of_succ_nat n).

(** The memory before any allocation. *)
Definition no_objects {object : Type} : memory object :=
  {| objects := ∅; requests := 0 |}.

(* ===================================================================== *)
(** ** The helpers of [examples/users/native/helpers.c] *)
(* ===================================================================== *)

Module Users.

(** The values of the structs of [examples/users/native/structs.h]; a
    [double] is left uninterpreted. *)
Record UserDetails_value := {
  full_name : option addr;
  level : Z;
  department : option addr
}.

Record User_value (double : Type) := {
  id : Z;
  email : option addr;
  details : UserDetails_value;
  account_balance : double
}.
Arguments id {double} u.
Arguments email {double} u.
Arguments details {double} u.
Arguments account_balance {double} u.

(** What an allocated object, or a variable of the caller, holds. *)
Inductive object (double : Type) :=
| CharArray (s : string)
| SizeT_object (v : Z)
| User_array (us : list (User_value double)).
Arguments CharArray {double} s.
Arguments SizeT_object {double} v.
Arguments User_array {double} us.

(** The floating-point arithmetic of the platform, uninterpreted: the
    value whose bytes are all zero, the two literals of [createUsers], the
    sum, the product and the conversion from [size_t]. *)
Record double_arithmetic (double : Type) := {
  all_bits_zero : double;
  literal_1234_56 : double;
  literal_42_0 : double;
  add : double → double → double;
  mul : double → double → double;
  of_size_t : Z → double
}.
Arguments all_bits_zero {double} d.
Arguments literal_1234_56 {double} d.
Arguments literal_42_0 {double} d.
Arguments add {double} d a b.
Arguments mul {double} d a b.
Arguments of_size_t {double} d v.

Definition name_samples : list string :=
  ["Ada Lovelace"; "Alan Turing"]%string.

Definition email_samples : list string :=
  ["ada@example.com"; "alan@example.net"]%string.

Definition dept_samples : list string :=
  ["Mathematics"; "Computer Science"]%string.

(** [samples[i]] for one of the static arrays; an index outside of it is
    a fault. *)
Definition sample {double} (samples : list string) (i : Z)
  : prog (object double) cstring :=
  if (0 <=? i) then
    match samples !! Z.to_nat i with
    | Some s => prog_ret (Some s)
    | None => prog_fault
    end
  else prog_fault.

(** Conversion to [uint32_t]. *)
Definition to_uint32 (v : Z) : Z := v mod 2 ^ 32.

(** [users[i]], read.  The code does not check the index: reading beyond
    the end of the array is undefined behaviour, and what a run of the
    program does then is not determined.  The model ends there with
    [Fault]; that outcome says that the behaviour is undefined, not that
    the program stops. *)
Definition element {double} (users : option addr) (i : Z)
  : prog (object double) (User_value double) :=
  let* o := load users in
  match o with
  | User_array us =>
      if (0 <=? i) then
        match us !! Z.to_nat i with
        | Some u => prog_ret u
        | None => prog_fault
        end
      else prog_fault
  | _ => prog_fault
  end.

(** [users[i].member = v;] *)
Definition assign_element {double} (users : option addr) (i : Z)
    (f : User_value double → User_value double)
  : prog (object double) unit :=
  let* u := element users i in
  let* o := load users in
  match o with
  | User_array us => store users (User_array (<[Z.to_nat i := f u]> us))
  | _ => prog_fault
  end.

(** [*count = c;] *)
Definition assign_size_t {double} (count : option addr) (c : Z)
  : prog (object double) unit :=
  let* o := load count in
  match o with
  | SizeT_object _ => store count (SizeT_object c)
  | _ => prog_fault
  end.

(** [for (size_t i = first; ...; ++i) body], for the number of iterations
    that the loop condition allows. *)
Fixpoint for_range {object : Type} (i : Z) (iterations : nat)
    (body : Z → prog object unit) : prog object unit :=
  match iterations with
  | O => prog_ret tt
  | S k => body i ;; for_range (i + 1) k body
  end.

(** What [calloc] makes of an element. *)
Definition zeroed {double} (D : double_arithmetic double)
  : User_value double :=
  {| id := 0; email := None;
     details := {| full_name := None; level := 0; department := None |};
     account_balance := all_bits_zero D |}.

(** The body of the loop of [createUsers]; the sums with [i] are taken in
    [size_t] and converted to [uint32_t]. *)
Definition createUsers_body {double} (A : abi) (D : double_arithmetic double)
    (alloc : allocator) (users : option addr) (i : Z)
  : prog (object double) unit :=
  assign_element users i
    (λ u, {| id := to_uint32 (to_size_t A (1000 + i)); email := email u;
             details := details u;
             account_balance := account_balance u |}) ;;
  let* s := sample email_samples i in
  let* p := strdup alloc CharArray s in
  assign_element users i
    (λ u, {| id := id u; email := p; details := details u;
             account_balance := account_balance u |}) ;;
  let* s := sample name_samples i in
  let* p := strdup alloc CharArray s in
  assign_element users i
    (λ u, {| id := id u; email := email u;
             details := {| full_name := p; level := level (details u);
                           department := department (details u) |};
             account_balance := account_balance u |}) ;;
  assign_element users i
    (λ u, {| id := id u; email := email u;
             details := {| full_name := full_name (details u);
                           level := to_uint32 (to_size_t A (i + 1));
                           department := department (details u) |};
             account_balance := account_balance u |}) ;;
  let* s := sample dept_samples i in
  let* p := strdup alloc CharArray s in
  assign_element users i
    (λ u, {| id := id u; email := email u;
             details := {| full_name := full_name (details u);
                           level := level (details u);
                           department := p |};
             account_balance := account_balance u |}) ;;
  assign_element users i
    (λ u, {| id := id u; email := email u; details := details u;
             account_balance :=
               add D (literal_1234_56 D)
                 (mul D (of_size_t D i) (literal_42_0 D)) |}).

(** [User* createUsers(size_t* count)] *)
Definition createUsers {double} (A : abi) (D : double_arithmetic double)
    (alloc : allocator) (count : option addr)
  : prog (object double) (option addr) :=
  let c := 2 in
  let* users := allocate alloc (User_array (replicate (Z.to_nat c) (zeroed D))) in
  for_range 0 (Z.to_nat (c - 0)) (createUsers_body A D alloc users) ;;
  assign_size_t count c ;;
  prog_ret users.

(** The body of the loop of [freeUsers]. *)
Definition freeUsers_body {double} (users : option addr) (i : Z)
  : prog (object double) unit :=
  let* u := element users i in
  free (email u) ;;
  let* u := element users i in
  free (full_name (details u)) ;;
  let* u := element users i in
  free (department (details u)).

(** [void freeUsers(User* users, size_t count)] *)
Definition freeUsers {double} (users : option addr) (count : Z)
  : prog (object double) unit :=
  match users with
  | None => prog_ret tt
  | Some _ =>
      for_range 0 (Z.to_nat (count - 0)) (freeUsers_body users) ;;
      free users
  end.

(** Memory with the object [o] added at [p], and with the object at [p]
    removed, if [p] is not null. *)
Definition with_object {double} (p : option addr) (o : object double)
    (objs : gmap addr (object double)) : gmap addr (object double) :=
  match p with
  | None => objs
  | Some a => <[a := o]> objs
  end.

Definition without_object {double} (p : option addr)
    (objs : gmap addr (object double)) : gmap addr (object double) :=
  match p with
  | None => objs
  | Some a => delete a objs
  end.

(** Memory with the objects of [l] added, the first of the list last. *)
Definition with_objects {double} (l : list (option addr * object double))
    (objs : gmap addr (object double)) : gmap addr (object double) :=
  foldr (λ po, with_object po.1 po.2) objs l.

(** Each of the pointers [ps] is null or an address that is not in use
    in [objs] and that no later pointer of the list has. *)
Fixpoint allocated {double} (ps : list (option addr))
    (objs : gmap addr (object double)) : Prop :=
  match ps with
  | [] => True
  | p :: ps =>
      (∀ b, p = Some b → (Some b ∉ ps) ∧ objs !! b = None) ∧
      allocated ps objs
  end.

(** Element [i] of what [createUsers] returns, with the pointers given. *)
Definition created {double} (A : abi) (D : double_arithmetic double)
    (i : Z) (e n d : option addr) : User_value double :=
  {| id := to_uint32 (to_size_t A (1000 + i)); email := e;
     details := {| full_name := n;
                   level := to_uint32 (to_size_t A (i + 1));
                   department := d |};
     account_balance :=
       add D (literal_1234_56 D) (mul D (of_size_t D i) (literal_42_0 D)) |}.

(** The objects that [createUsers] allocates, the last one first: the
    array at [a] and the copies of the strings at the other pointers. *)
Definition createUsers_objects {double} (A : abi)
    (D : double_arithmetic double) (a : addr)
    (e0 n0 d0 e1 n1 d1 : option addr)
  : list (option addr * object double) :=
  [(d1, CharArray "Computer Science"); (n1, CharArray "Alan Turing");
   (e1, CharArray "alan@example.net");
   (d0, CharArray "Mathematics"); (n0, CharArray "Ada Lovelace");
   (e0, CharArray "ada@example.com");
   (Some a, User_array [created A D 0 e0 n0 d0; created A D 1 e1 n1 d1])].

End Users.

(** An arithmetic for concrete runs: hundredths, as integers. *)
Definition hundredths : Users.double_arithmetic Z :=
  {| Users.all_bits_zero := 0;
     Users.literal_1234_56 := 123456;
     Users.literal_42_0 := 4200;
     Users.add := Z.add;
     Users.mul := λ a b, a * b / 100;
     Users.of_size_t := λ v, 100 * v |}.

(** A memory that holds one [size_t] variable of the caller. *)
Definition one_size_t : memory (Users.object Z) :=
  {| objects := {[100%positive := Users.SizeT_object 0]}; requests := 0 |}.

(* ===================================================================== *)
(** ** Properties of the registry *)
(* ===================================================================== *)

Create HintDb registry.
#[local] Hint Constructors linked chain : registry.

Lemma strcmp_refl s : strcmp s s = 0.
Proof.
  unfold strcmp. pose proof (String.compare_antisym s s) as H.
  destruct (String.compare s s); simpl in H; congruence.
Qed.

Lemma strcmp_zero a b : strcmp a b = 0 ↔ a = b.
Proof.
  split; [| intros ->; apply strcmp_refl].
  unfold strcmp. destruct (String.compare a b) eqn:E; try discriminate.
  intros _. by apply String.compare_eq_iff.
Qed.

Lemma node_matches_spec n q :
  node_matches n q = true ↔ ∃ d, info n = Some d ∧ s_name d = Some q.
Proof.
  unfold node_matches. split.
  - destruct (info n) as [d|]; [| discriminate].
    destruct (s_name d) as [nm|] eqn:E; [| discriminate].
    intros H%Z.eqb_eq%strcmp_zero. subst. eauto.
  - intros (d & -> & ->). apply Z.eqb_eq, strcmp_refl.
Qed.

(** More fuel does not change a result. *)
Lemma lookup_loop_more_fuel fuel fuel' h cursor q r :
  (fuel ≤ fuel')%nat →
  lookup_loop fuel h cursor q = Returns r →
  lookup_loop fuel' h cursor q = Returns r.
Proof.
  revert fuel' cursor. induction fuel as [|fuel IH]; intros fuel' cursor Hle.
  - destruct cursor; simpl; [discriminate |].
    destruct fuel'; simpl; done.
  - destruct fuel' as [|fuel']; [lia |].
    destruct cursor as [a|]; simpl; [| done].
    destruct (h !! a) as [n|]; [| done].
    destruct (node_matches n q); [done |].
    apply IH. lia.
Qed.

(** Whatever the loop returns is the descriptor of a linked node and
    carries the queried name. *)
Lemma lookup_loop_sound fuel h cursor q d :
  lookup_loop fuel h cursor q = Returns (Some d) →
  s_name d = Some q ∧
  ∃ a n, linked h cursor a ∧ h !! a = Some n ∧ info n = Some d.
Proof.
  revert cursor. induction fuel as [|fuel IH]; intros [a|]; simpl; try done.
  destruct (h !! a) as [n|] eqn:Ha; [| done].
  destruct (node_matches n q) eqn:Hm.
  - intros [= Hd]. apply node_matches_spec in Hm as (d' & Hi & Hn).
    rewrite Hi in Hd. injection Hd as ->. split; [done |].
    exists a, n. eauto with registry.
  - intros (Hn & b & nb & Hl & Hb & Hi)%IH. split; [done |].
    exists b, nb. eauto with registry.
Qed.

(** A linked node that matches makes the loop return a match. *)
Lemma lookup_loop_finds h cursor a n q :
  linked h cursor a → h !! a = Some n → node_matches n q = true →
  ∃ fuel d, lookup_loop fuel h cursor q = Returns (Some d)
            ∧ s_name d = Some q.
Proof.
  induction 1 as [a n' Ha | a n' b Ha Hl IH]; intros Hn Hm.
  - assert (n' = n) as -> by congruence.
    destruct (proj1 (node_matches_spec _ _) Hm) as (d & Hi & Hd).
    exists 1%nat, d. simpl. by rewrite Ha, Hm, Hi.
  - destruct (node_matches n' q) eqn:Hm'.
    + destruct (proj1 (node_matches_spec _ _) Hm') as (d & Hi & Hd).
      exists 1%nat, d. simpl. by rewrite Ha, Hm', Hi.
    + destruct (IH Hn Hm) as (fuel & d & Hr & Hd).
      exists (S fuel), d. simpl. by rewrite Ha, Hm'.
Qed.

(** Along a chain that ends in [NULL] without a match, the loop runs off
    the end. *)
Lemma lookup_loop_misses h cursor l q :
  chain h cursor l →
  (∀ a n, linked h cursor a → h !! a = Some n → node_matches n q = false) →
  lookup_loop (length l) h cursor q = Returns None.
Proof.
  induction 1 as [| a n l Ha Hc IH]; intros Hno; [done |].
  simpl. rewrite Ha, (Hno a n) by eauto with registry.
  apply IH. intros b nb Hl Hb. eauto with registry.
Qed.

(** Writing to a node that is not linked from [cursor] does not change
    the traversal that starts at [cursor]. *)
Lemma lookup_loop_frame fuel h a n x cursor q :
  h !! a = Some n → ¬ linked h cursor a →
  lookup_loop fuel (<[a := x]> h) cursor q = lookup_loop fuel h cursor q.
Proof.
  intros Ha. revert cursor.
  induction fuel as [|fuel IH]; intros [b|] Hnl; simpl; try done.
  assert (a ≠ b) as Hne by (intros <-; eauto with registry).
  rewrite lookup_insert_ne by done.
  destruct (h !! b) as [nb|] eqn:Hb; [| done].
  destruct (node_matches nb q); [done |].
  apply IH. intros Hl. eauto with registry.
Qed.

(** A chain that ends in [NULL] stays one when a node outside of it is
    put in front. *)
Lemma chain_frame h a x cursor l :
  a ∉ l → chain h cursor l → chain (<[a := x]> h) cursor l.
Proof.
  intros Hnotin Hc. induction Hc as [| b n l Hb Hc IH]; [constructor |].
  apply not_elem_of_cons in Hnotin as [Hne Hnotin].
  econstructor; [by rewrite lookup_insert_ne | by apply IH].
Qed.

Lemma chain_linked h cursor l a : chain h cursor l → linked h cursor a → a ∈ l.
Proof.
  intros Hc Hl. revert l Hc.
  induction Hl as [a n Ha | a n b Ha Hl IH]; intros l Hc;
    inversion Hc; subst; [left |].
  right. apply IH. congruence.
Qed.

(** Registering a node that is not yet linked keeps the registry a chain
    that ends in [NULL]: registries built that way are never cyclic. *)
Lemma registry_add_chain st a l st' :
  chain (nodes st) (cgocopy_registry_head st) l → a ∉ l →
  cgocopy_registry_add (Some a) st = Returns st' →
  chain (nodes st') (cgocopy_registry_head st') (a :: l).
Proof.
  intros Hc Hnotin. unfold cgocopy_registry_add.
  destruct (nodes st !! a) as [n|] eqn:Ha; [| done].
  intros [= <-]. simpl. econstructor; [apply lookup_insert_eq |].
  simpl. by apply chain_frame.
Qed.

(** Registering nodes that are valid, pairwise different and not linked
    yet, one after the other, builds a chain that ends in [NULL]: the nodes
    in reverse order of registration, then the old chain. *)
Lemma add_all_chain ps st l :
  chain (nodes st) (cgocopy_registry_head st) l →
  NoDup ps → (∀ a, a ∈ ps → (a ∉ l) ∧ is_Some (nodes st !! a)) →
  chain (nodes (add_all (map Some ps) st))
    (cgocopy_registry_head (add_all (map Some ps) st)) (reverse ps ++ l).
Proof.
  revert st l. induction ps as [|a ps IH]; intros st l Hc Hnd Hps; [done |].
  apply NoDup_cons in Hnd as [Ha Hnd].
  destruct (Hps a) as [Hal [n Hn]]; [left |].
  rewrite reverse_cons, <- app_assoc. simpl.
  pose proof (registry_add_chain st a l) as Hadd.
  unfold cgocopy_registry_add in Hadd |- *. rewrite Hn in Hadd |- *.
  apply IH; [by eapply Hadd | done |].
  intros b Hb. destruct (Hps b) as [Hbl Hbn]; [by right |].
  assert (a ≠ b) by (by intros ->).
  split; [by apply not_elem_of_cons |]. simpl.
  by rewrite lookup_insert_ne.
Qed.

(** A node linked from [cursor] stays linked when a node that is not
    linked from [cursor] is written to, and it is not the one written. *)
Lemma linked_frame h a n x cursor b :
  h !! a = Some n → ¬ linked h cursor a → linked h cursor b →
  linked (<[a := x]> h) cursor b ∧ a ≠ b.
Proof.
  intros Ha Hfresh Hl.
  induction Hl as [b nb Hb | c nc b Hc Hl IH].
  - assert (a ≠ b) by (intros <-; eauto with registry).
    split; [| done]. eapply linked_here. by rewrite lookup_insert_ne.
  - assert (a ≠ c) by (intros <-; eauto with registry).
    destruct IH as [IH Hne]; [intros Hl'; eauto with registry |].
    split; [| done]. eapply linked_later; [by rewrite lookup_insert_ne |].
    done.
Qed.

(** Nodes linked from [cursor] stay inside any set of addresses that
    contains [cursor] and is closed under [next]. *)
Lemma linked_closed h (P : addr → Prop) cursor a :
  (∀ b, cursor = Some b → P b) →
  (∀ b n c, P b → h !! b = Some n → next n = Some c → P c) →
  linked h cursor a → P a.
Proof.
  intros Hstart Hstep Hl.
  induction Hl as [a n Ha | a n b Ha Hl IH]; [by apply Hstart |].
  apply IH. intros c Hc. eapply Hstep; [by apply Hstart | done..].
Qed.

(** C1: for every registry state and every name under which a linked node
    carries a descriptor, the lookup of that name returns, and it returns a
    descriptor whose name is the queried string. *)
Theorem C1_lookup_registered_name (st : registry) (q : string) :
  registered st q →
  ∃ d, lookup_returns st (Some q) (Some d) ∧ s_name d = Some q.
Proof.
  intros (a & n & d & Hl & Ha & Hi & Hn).
  destruct (lookup_loop_finds _ _ _ _ q Hl Ha) as (fuel & d' & Hr & Hd').
  { apply node_matches_spec. eauto. }
  exists d'. split; [by exists fuel | done].
Qed.

Lemma C1_lookup_registered_name_witness :
  registered registry_123 "Point3D" ∧
  ∃ d, lookup_returns registry_123 (Some "Point3D"%string) (Some d)
       ∧ s_name d = Some "Point3D"%string.
Proof.
  assert (registered registry_123 "Point3D") as H.
  { exists 3%positive, {| info := Some Point3D_info; next := None |},
      Point3D_info.
    split; [| by vm_compute].
    eapply linked_later; [by vm_compute |].
    eapply linked_later; [by vm_compute |].
    eapply linked_here. by vm_compute. }
  split; [exact H |].
  exact (C1_lookup_registered_name registry_123 "Point3D" H).
Defined.

(** C3: registration prepends.  When a descriptor [d1] and then, through
    another node, a descriptor [d2] are registered under the same name, the
    second node is the head, the first one stays linked right behind it, and
    a lookup of the name returns [d2]. *)
Theorem C3_last_registered_wins (st : registry) (a1 a2 : addr)
    (n1 n2 : cgocopy_struct_registry_node) (d1 d2 : cgocopy_struct_info)
    (q : string) :
  a1 ≠ a2 →
  nodes st !! a1 = Some n1 → info n1 = Some d1 → s_name d1 = Some q →
  nodes st !! a2 = Some n2 → info n2 = Some d2 → s_name d2 = Some q →
  ∃ st1 st2,
    cgocopy_registry_add (Some a1) st = Returns st1 ∧
    cgocopy_registry_add (Some a2) st1 = Returns st2 ∧
    cgocopy_registry_head st2 = Some a2 ∧
    nodes st2 !! a2 = Some {| info := Some d2; next := Some a1 |} ∧
    nodes st2 !! a1
      = Some {| info := Some d1; next := cgocopy_registry_head st |} ∧
    ∀ fuel,
      cgocopy_lookup_struct_info (S fuel) st2 (Some q) = Returns (Some d2).
Proof.
  intros Hne Ha1 Hi1 Hq1 Ha2 Hi2 Hq2.
  set (st1 := {| nodes := <[a1 := {| info := info n1;
                                      next := cgocopy_registry_head st |}]>
                            (nodes st);
                 cgocopy_registry_head := Some a1 |}).
  assert (nodes st1 !! a2 = Some n2) as Ha2'
    by (simpl; by rewrite lookup_insert_ne).
  exists st1. eexists. split.
  { unfold cgocopy_registry_add. by rewrite Ha1. }
  split.
  { unfold cgocopy_registry_add. by rewrite Ha2'. }
  simpl. split; [done |]. rewrite lookup_insert_eq, Hi2.
  split; [done |]. rewrite lookup_insert_ne, lookup_insert_eq, Hi1 by done.
  split; [done |]. intros fuel.
  unfold node_matches. simpl. by rewrite Hq2, strcmp_refl.
Qed.

Lemma C3_last_registered_wins_witness :
  ∃ st1 st2,
    cgocopy_registry_add (Some 1%positive) (registry_init three_nodes)
      = Returns st1 ∧
    cgocopy_registry_add (Some 2%positive) st1 = Returns st2 ∧
    cgocopy_registry_head st2 = Some 2%positive ∧
    nodes st2 !! 2%positive
      = Some {| info := Some users_User_info; next := Some 1%positive |} ∧
    nodes st2 !! 1%positive = Some {| info := Some User_info; next := None |} ∧
    ∀ fuel,
      cgocopy_lookup_struct_info (S fuel) st2 (Some "User"%string)
      = Returns (Some users_User_info).
Proof.
  refine (C3_last_registered_wins (registry_init three_nodes) 1 2
            {| info := Some User_info; next := None |}
            {| info := Some users_User_info; next := None |}
            User_info users_User_info "User" _ _ _ _ _ _ _);
    first [ by vm_compute | discriminate ].
Defined.

(** C5: registering a null node pointer returns without touching the
    registry, so every later lookup gives what it gave before. *)
Theorem C5_register_null_is_noop (st : registry) :
  ∃ st',
    cgocopy_registry_add None st = Returns st' ∧ st' = st ∧
    ∀ fuel name,
      cgocopy_lookup_struct_info fuel st' name
      = cgocopy_lookup_struct_info fuel st name.
Proof. exists st. by repeat split. Qed.

(** After registering node 1 twice, its [next] points to itself. *)
Lemma registry_twice_cycle :
  cgocopy_registry_head registry_twice = Some 1%positive ∧
  nodes registry_twice !! 1%positive
    = Some {| info := Some User_info; next := Some 1%positive |}.
Proof. by vm_compute. Qed.

(** C4, as stated, fails: in the registry reached by registering the same
    node twice no descriptor is registered under "DoesNotExist", and the
    lookup of that name never returns. *)
Lemma C4_counterexample_cyclic_registry :
  ¬ registered registry_twice "DoesNotExist" ∧
  ¬ lookup_returns registry_twice (Some "DoesNotExist"%string) None.
Proof.
  destruct registry_twice_cycle as [Hh H1]. split.
  - intros (a & n & d & Hl & Ha & Hi & Hn).
    assert (a = 1%positive) as ->.
    { revert Hl. apply (linked_closed _ (λ b, b = 1%positive)).
      - intros b. rewrite Hh. congruence.
      - intros b nb c ->. rewrite H1. intros [= <-]. simpl. congruence. }
    rewrite H1 in Ha. injection Ha as <-. simpl in Hi.
    injection Hi as <-. vm_compute in Hn. discriminate.
  - intros [fuel Hr]. unfold cgocopy_lookup_struct_info in Hr.
    rewrite Hh in Hr. induction fuel as [|fuel IH]; [discriminate |].
    simpl in Hr. rewrite H1 in Hr. apply IH. exact Hr.
Qed.

(** C4, amended: in every registry whose chain of nodes ends in [NULL]
    (which is every registry built by registering nodes that are not linked
    yet), the lookup of a name under which nothing is registered returns
    the null pointer; the lookup with a null name returns the null pointer
    in every registry; and no lookup returns anything but the descriptor of
    a linked node that carries the queried name. *)
Theorem C4_lookup_not_found (st : registry) (l : list addr) :
  chain (nodes st) (cgocopy_registry_head st) l →
  (∀ q, ¬ registered st q →
        cgocopy_lookup_struct_info (length l) st (Some q) = Returns None) ∧
  (∀ st0 fuel, cgocopy_lookup_struct_info fuel st0 None = Returns None) ∧
  (∀ st0 fuel q d,
     cgocopy_lookup_struct_info fuel st0 (Some q) = Returns (Some d) →
     s_name d = Some q ∧
     ∃ a n, linked (nodes st0) (cgocopy_registry_head st0) a ∧
            nodes st0 !! a = Some n ∧ info n = Some d).
Proof.
  intros Hc. split; [| split].
  - intros q Hno. simpl. eapply lookup_loop_misses; [done |].
    intros a n Hl Ha. destruct (node_matches n q) eqn:Hm; [| done].
    destruct Hno. apply node_matches_spec in Hm as (d & Hi & Hn).
    by exists a, n, d.
  - done.
  - intros st0 fuel q d Hr. simpl in Hr.
    by apply lookup_loop_sound in Hr.
Qed.

Lemma linked_registry_123 a :
  linked (nodes registry_123) (cgocopy_registry_head registry_123) a →
  a = 1%positive ∨ a = 2%positive ∨ a = 3%positive.
Proof.
  apply (linked_closed _
           (λ b, b = 1%positive ∨ b = 2%positive ∨ b = 3%positive)).
  - intros b [= <-]. by left.
  - intros b n c [-> | [-> | ->]]; vm_compute; intros [= <-]; simpl;
      intros [= <-]; auto.
Qed.

Lemma C4_lookup_not_found_witness :
  chain (nodes registry_123) (cgocopy_registry_head registry_123)
    [1; 2; 3]%positive ∧
  cgocopy_lookup_struct_info 3 registry_123 (Some "DoesNotExist"%string)
    = Returns None.
Proof.
  assert (chain (nodes registry_123) (cgocopy_registry_head registry_123)
            [1; 2; 3]%positive) as Hc.
  { eapply chain_node; [by vm_compute |].
    eapply chain_node; [by vm_compute |].
    eapply chain_node; [by vm_compute |]. apply chain_null. }
  split; [exact Hc |].
  apply (proj1 (C4_lookup_not_found registry_123 _ Hc)).
  intros (a & n & d & Hl & Ha & Hi & Hn).
  apply linked_registry_123 in Hl as [-> | [-> | ->]];
    vm_compute in Ha; injection Ha as <-; simpl in Hi; injection Hi as <-;
    vm_compute in Hn; discriminate.
Defined.

(** C10, as stated, fails: node 2 (named "User") is already linked in
    the registry 1, 2, 3; registering it again makes the chain cycle through
    nodes 2 and 1, and the lookup of "Point3D", found before the call, never
    returns after it. *)
Lemma C10_counterexample_relinked_node :
  nodes registry_123 !! 2%positive
    = Some {| info := Some users_User_info; next := Some 3%positive |} ∧
  s_name users_User_info = Some "User"%string ∧
  cgocopy_registry_add (Some 2%positive) registry_123
    = Returns registry_relinked ∧
  "Point3D"%string ≠ "User"%string ∧
  lookup_returns registry_123 (Some "Point3D"%string) (Some Point3D_info) ∧
  ∀ r, ¬ lookup_returns registry_relinked (Some "Point3D"%string) r.
Proof.
  split; [by vm_compute |]. split; [by vm_compute |].
  split; [by vm_compute |]. split; [discriminate |].
  split; [exists 3%nat; by vm_compute |].
  intros r [fuel Hr]. unfold cgocopy_lookup_struct_info in Hr.
  assert (cgocopy_registry_head registry_relinked = Some 2%positive)
    as Hh by (by vm_compute).
  assert (nodes registry_relinked !! 2%positive
          = Some {| info := Some users_User_info; next := Some 1%positive |})
    as H2 by (by vm_compute).
  assert (nodes registry_relinked !! 1%positive
          = Some {| info := Some User_info; next := Some 2%positive |})
    as H1 by (by vm_compute).
  assert (node_matches {| info := Some users_User_info;
                          next := Some 1%positive |} "Point3D" = false)
    as M2 by (by vm_compute).
  assert (node_matches {| info := Some User_info;
                          next := Some 2%positive |} "Point3D" = false)
    as M1 by (by vm_compute).
  rewrite Hh in Hr. revert Hr.
  generalize (nodes registry_relinked) H1 H2. intros h H1' H2'.
  assert (∀ fuel, lookup_loop fuel h (Some 2%positive) "Point3D" ≠ Returns r
                  ∧ lookup_loop fuel h (Some 1%positive) "Point3D" ≠ Returns r)
    as Hnever.
  { clear fuel. intros fuel. induction fuel as [|fuel [IH2 IH1]];
      [by split |].
    simpl. rewrite H1', H2', M1, M2. by split. }
  apply (Hnever fuel).
Qed.

(** C10, amended: registering a node that is not linked yet leaves the
    lookup of every name other than the node's own exactly as it was; the
    new node costs one more iteration and the rest of the traversal is the
    old one.  Every node that was linked is still linked and unchanged. *)
Theorem C10_register_frame (st st' : registry) (a : addr)
    (n : cgocopy_struct_registry_node) (d : cgocopy_struct_info)
    (nm q : string) :
  nodes st !! a = Some n → info n = Some d → s_name d = Some nm →
  ¬ linked (nodes st) (cgocopy_registry_head st) a →
  cgocopy_registry_add (Some a) st = Returns st' →
  q ≠ nm →
  (∀ fuel, cgocopy_lookup_struct_info (S fuel) st' (Some q)
           = cgocopy_lookup_struct_info fuel st (Some q)) ∧
  (∀ r, lookup_returns st' (Some q) r ↔ lookup_returns st (Some q) r) ∧
  (∀ b, linked (nodes st) (cgocopy_registry_head st) b →
        linked (nodes st') (cgocopy_registry_head st') b ∧
        nodes st' !! b = nodes st !! b).
Proof.
  intros Ha Hi Hn Hfresh Hadd Hq.
  unfold cgocopy_registry_add in Hadd. rewrite Ha in Hadd.
  injection Hadd as <-.
  assert (∀ fuel, cgocopy_lookup_struct_info (S fuel)
            {| nodes := <[a := {| info := info n;
                                  next := cgocopy_registry_head st |}]>
                          (nodes st);
               cgocopy_registry_head := Some a |} (Some q)
          = cgocopy_lookup_struct_info fuel st (Some q)) as Hstep.
  { intros fuel. simpl. rewrite lookup_insert_eq.
    assert (node_matches {| info := info n;
                            next := cgocopy_registry_head st |} q = false)
      as ->.
    { apply not_true_is_false. intros (d' & Hi' & Hn')%node_matches_spec.
      simpl in Hi'. congruence. }
    simpl. by eapply lookup_loop_frame. }
  split; [exact Hstep |]. split.
  - intros r. split.
    + intros [[|fuel] Hr]; [discriminate |].
      exists fuel. by rewrite <- Hstep.
    + intros [fuel Hr]. exists (S fuel). by rewrite Hstep.
  - intros b Hb. simpl.
    destruct (linked_frame _ a n
                {| info := info n; next := cgocopy_registry_head st |}
                _ b Ha Hfresh Hb) as [Hl Hne].
    split; [| by rewrite lookup_insert_ne].
    eapply linked_later; [apply lookup_insert_eq | exact Hl].
Qed.

Lemma C10_register_frame_witness :
  ∃ st2,
    cgocopy_registry_add (Some 2%positive) registry_3 = Returns st2 ∧
    (∀ fuel, cgocopy_lookup_struct_info (S fuel) st2 (Some "Point3D"%string)
             = cgocopy_lookup_struct_info fuel registry_3
                 (Some "Point3D"%string)) ∧
    (∀ r, lookup_returns st2 (Some "Point3D"%string) r
          ↔ lookup_returns registry_3 (Some "Point3D"%string) r) ∧
    (∀ b, linked (nodes registry_3) (cgocopy_registry_head registry_3) b →
          linked (nodes st2) (cgocopy_registry_head st2) b ∧
          nodes st2 !! b = nodes registry_3 !! b).
Proof.
  exists (add_all [Some 2%positive] registry_3).
  split; [by vm_compute |].
  apply (C10_register_frame registry_3 _ 2%positive
           {| info := Some users_User_info; next := None |}
           users_User_info "User" "Point3D");
    [by vm_compute | by vm_compute | by vm_compute | | by vm_compute
    | discriminate ].
  intros Hl. assert (2 = 3)%positive; [| discriminate].
  revert Hl. apply (linked_closed _ (λ b, b = 3%positive)).
  - by intros b [= <-].
  - intros b nb c ->. vm_compute. by intros [= <-].
Defined.

(* ===================================================================== *)
(** ** Properties of the layout *)
(* ===================================================================== *)

Lemma align_up_ge (n a : Z) : 0 < a → n ≤ align_up n a.
Proof.
  intros Ha. unfold align_up.
  pose proof (Z.div_mod (n + a - 1) a) as Hdm.
  pose proof (Z.mod_pos_bound (n + a - 1) a Ha) as Hm. lia.
Qed.

Lemma complete_struct tag ms :
  complete (Tstruct tag ms) = true ↔
  ms ≠ [] ∧ Forall (λ m, complete m.2 = true) ms ∧ NoDup (map fst ms).
Proof.
  simpl. rewrite !andb_true_iff, bool_decide_eq_true.
  assert ((fix all (ms : list (string * ctype)) : bool :=
             match ms with
             | [] => true
             | (_, ty) :: ms' => complete ty && all ms'
             end) ms = true ↔ Forall (λ m, complete m.2 = true) ms) as ->.
  { induction ms as [|[f ty] ms IH]; simpl.
    - split; [constructor | done].
    - rewrite andb_true_iff, Forall_cons, IH. done. }
  destruct ms; intuition congruence.
Qed.

(** Induction over object types, with the members of a struct as
    premises. *)
Lemma ctype_nested_ind (P : ctype → Prop) :
  (∀ s, P (Tscalar s)) →
  (∀ e n, P e → P (Tarray e n)) →
  (∀ tag ms, Forall (λ m, P m.2) ms → P (Tstruct tag ms)) →
  ∀ t, P t.
Proof.
  intros Hs Ha Hst. fix IH 1. intros [s | e n | tag ms].
  - apply Hs.
  - apply Ha, IH.
  - apply Hst. induction ms as [|[f ty] ms IHms]; constructor;
      [apply IH | apply IHms].
Qed.

Lemma member_lookup_elem ms f ty :
  member_lookup ms f = Some ty → (f, ty) ∈ ms.
Proof.
  induction ms as [|[g ty'] ms IH]; simpl; [done |].
  destruct (decide (g = f)) as [-> |].
  - intros [= ->]. left.
  - intros H. right. by apply IH.
Qed.

Lemma x86_64_ok : abi_ok x86_64.
Proof. split; by intros []. Qed.

Lemma i386_ok : abi_ok i386.
Proof. split; by intros []. Qed.

Lemma s390x_ok : abi_ok s390x.
Proof. split; by intros []. Qed.

Section layout.

Context (A : abi) (HA : abi_ok A).

(** Members all of whose types have a positive size and alignment. *)
Let positive_members (ms : list (string * ctype)) : Prop :=
  Forall (λ m, 0 < sizeof A m.2 ∧ 0 < alignof A m.2) ms.

Lemma size_t_modulus_256 : 256 ≤ size_t_modulus A.
Proof.
  unfold size_t_modulus. pose proof (size_pos A HA SizeT) as Hs.
  change 256 with (2 ^ 8). apply Z.pow_le_mono_r; lia.
Qed.

Lemma to_size_t_small (v : Z) :
  0 ≤ v < size_t_modulus A → to_size_t A v = v.
Proof. intros Hv. unfold to_size_t. by apply Z.mod_small. Qed.

Lemma alignof_struct tag ms :
  alignof A (Tstruct tag ms) = members_align A ms.
Proof.
  simpl. induction ms as [|[f ty] ms IH]; simpl; [done |]. by rewrite IH.
Qed.

Lemma sizeof_struct tag ms :
  sizeof A (Tstruct tag ms)
  = align_up (members_end A 0 ms) (members_align A ms).
Proof.
  rewrite <- (alignof_struct tag). simpl. f_equal.
  generalize 0. induction ms as [|[f ty] ms IH]; intros pos; simpl; [done |].
  apply IH.
Qed.

Lemma members_align_pos ms : 0 < members_align A ms.
Proof. induction ms as [|[f ty] ms IH]; simpl; lia. Qed.

(** Members are placed one after the other. *)
Lemma members_end_ge ms pos :
  positive_members ms → pos ≤ members_end A pos ms.
Proof.
  intros H. revert pos.
  induction H as [|[f ty] ms [Hs Hal] _ IH]; intros pos; simpl; [lia |].
  simpl in Hs, Hal. pose proof (align_up_ge pos _ Hal).
  etrans; [| apply IH]. lia.
Qed.

(** Complete types have a positive size and alignment. *)
Lemma complete_positive t :
  complete t = true → 0 < sizeof A t ∧ 0 < alignof A t.
Proof.
  induction t as [s | e n IH | tag ms IH] using ctype_nested_ind.
  - intros _. simpl. split; [apply size_pos | apply align_pos]; done.
  - simpl. intros [Hn He]%andb_true_iff. apply Z.ltb_lt in Hn.
    destruct (IH He). split; [nia | done].
  - intros (Hne & Hall & _)%complete_struct.
    rewrite sizeof_struct, alignof_struct.
    pose proof (members_align_pos ms) as Hal. split; [| done].
    assert (positive_members ms) as Hpos.
    { rewrite Forall_forall in IH, Hall. apply Forall_forall.
      intros m Hm. by apply IH; [| apply Hall]. }
    pose proof (align_up_ge (members_end A 0 ms) _ Hal).
    destruct ms as [|[f ty] ms]; [done |]. simpl in *.
    inversion Hpos as [| ? ? [Hs Ha'] Hpos']; subst. simpl in *.
    pose proof (align_up_ge 0 _ Ha').
    pose proof (members_end_ge ms (align_up 0 (alignof A ty) + sizeof A ty)
                  Hpos').
    lia.
Qed.

Lemma complete_members_positive tag ms :
  complete (Tstruct tag ms) = true → positive_members ms.
Proof.
  intros (_ & Hall & _)%complete_struct.
  eapply Forall_impl; [done |]. intros m Hm. by apply complete_positive.
Qed.

(** A member that has a type has an offset. *)
Lemma member_offset_is_Some ms f ty pos :
  member_lookup ms f = Some ty → is_Some (member_offset A pos ms f).
Proof.
  revert pos. induction ms as [|[g ty'] ms IH]; intros pos; simpl; [done |].
  destruct (decide (g = f)); eauto.
Qed.



(* --------------------------------------------------------------------- *)
(** *** What the field macros store *)
(* --------------------------------------------------------------------- *)






End layout.

(* ===================================================================== *)
(** ** Properties of the descriptors the macros build *)
(* ===================================================================== *)











(** C8: for a member declared as an array of 5 elements of an integer
    type, [CGOCOPY_FIELD_ARRAY] with element count 5 gives a descriptor of
    kind array with [elem_count] 5 and a size of 5 times the element size;
    [CGOCOPY_ARRAY_FIELD] gives one with [is_array] set, [array_len] 5 and a
    size of 5 times the element size. *)
Theorem C8_array_field_of_five (A : abi) (struct_type : ctype)
    (field_name elem_name : string) (elem : ctype) :
  abi_ok A → is_integer elem = true →
  member_type struct_type field_name = Some (Tarray elem 5) →
  (∃ fi,
     CGOCOPY_FIELD_ARRAY A struct_type field_name elem_name 5 = Some fi ∧
     f_kind fi = CGOCOPY_FIELD_ARRAY_KIND ∧
     f_elem_count fi = 5 ∧
     f_size fi = 5 * sizeof A elem) ∧
  (∃ fi,
     Macros2.CGOCOPY_ARRAY_FIELD A struct_type field_name elem = Some fi ∧
     Macros2.is_array fi = 1 ∧
     Macros2.array_len fi = 5 ∧
     Macros2.size fi = 5 * sizeof A elem).
Proof.
  intros HA Hint Hty.
  assert (0 < sizeof A elem) as Hpos.
  { destruct elem as [s | |]; try done. apply (size_pos A HA). }
  destruct struct_type as [| | tag ms]; try done. simpl in Hty.
  destruct (member_offset_is_Some A ms field_name _ 0 Hty) as [off Hoff].
  pose proof (size_t_modulus_256 A HA) as HM.
  unfold CGOCOPY_FIELD_ARRAY, CGOCOPY_INTERNAL_FIELD_INIT,
    Macros2.CGOCOPY_ARRAY_FIELD.
  simpl. rewrite Hoff, Hty. simpl. split; eexists; (split; [done |]); simpl.
  - split; [done |]. split; [apply to_size_t_small |]; lia.
  - split; [done |]. split; [| lia].
    rewrite Z.mul_comm. apply Z.div_mul. lia.
Qed.

Lemma C8_array_field_of_five_witness :
  (∃ fi,
     CGOCOPY_FIELD_ARRAY x86_64 Student "grades" "int" 5 = Some fi ∧
     f_kind fi = CGOCOPY_FIELD_ARRAY_KIND ∧
     f_elem_count fi = 5 ∧
     f_size fi = 5 * sizeof x86_64 (Tscalar Int)) ∧
  (∃ fi,
     Macros2.CGOCOPY_ARRAY_FIELD x86_64 Student "grades" (Tscalar Int)
       = Some fi ∧
     Macros2.is_array fi = 1 ∧
     Macros2.array_len fi = 5 ∧
     Macros2.size fi = 5 * sizeof x86_64 (Tscalar Int)).
Proof.
  apply (C8_array_field_of_five x86_64 Student "grades" "int"
           (Tscalar Int) x86_64_ok); reflexivity.
Defined.

(* ===================================================================== *)
(** ** Properties of the architecture probe *)
(* ===================================================================== *)

(** Every member of [info] is assigned before the object is returned: the
    result does not depend on what the local object held at first, and the
    registry comes back as it went in. *)
Lemma getArchitectureInfo_value (A : abi) (indeterminate : arch_member → Z)
    (st : registry) :
  getArchitectureInfo A indeterminate st
  = Returns
      ({| int8_size := sizeof A (Tscalar Int8);
          int16_size := sizeof A (Tscalar Int16);
          int32_size := sizeof A (Tscalar Int32);
          int64_size := sizeof A (Tscalar Int64);
          uint8_size := sizeof A (Tscalar UInt8);
          uint16_size := sizeof A (Tscalar UInt16);
          uint32_size := sizeof A (Tscalar UInt32);
          uint64_size := sizeof A (Tscalar UInt64);
          float_size := sizeof A (Tscalar Float);
          double_size := sizeof A (Tscalar Double);
          pointer_size := sizeof A (Tscalar VoidPtr);
          sizet_size := sizeof A (Tscalar SizeT);
          int8_offset := test_offset A "i8";
          int16_offset := test_offset A "i16";
          int32_offset := test_offset A "i32";
          int64_offset := test_offset A "i64";
          uint8_offset := test_offset A "u8";
          uint16_offset := test_offset A "u16";
          uint32_offset := test_offset A "u32";
          uint64_offset := test_offset A "u64";
          float_offset := test_offset A "f32";
          double_offset := test_offset A "f64";
          pointer_offset := test_offset A "ptr";
          charptr_offset := test_offset A "charptr";
          sizet_offset := test_offset A "sizet";
          test_struct_size := sizeof A AlignmentTestStruct;
          is_64bit := if sizeof A (Tscalar VoidPtr) =? 8 then 1 else 0;
          is_little_endian := if endian_test_c0 A =? 0x04 then 1 else 0 |},
       st).
Proof. reflexivity. Qed.

(** The layout of the test struct on the three platforms. *)
Example AlignmentTestStruct_x86_64 :
  map (test_offset x86_64)
    ["i8"; "i32"; "i64"; "i16"; "f64"; "i8_2"; "ptr"; "u8"; "u32"; "u16";
     "u64"; "f32"; "charptr"; "sizet"]%string
  = [0; 4; 8; 16; 24; 32; 40; 48; 52; 56; 64; 72; 80; 88]
  ∧ sizeof x86_64 AlignmentTestStruct = 96.
Proof. by vm_compute. Qed.

Example AlignmentTestStruct_i386 :
  map (test_offset i386)
    ["i8"; "i32"; "i64"; "i16"; "f64"; "i8_2"; "ptr"; "u8"; "u32"; "u16";
     "u64"; "f32"; "charptr"; "sizet"]%string
  = [0; 4; 8; 16; 20; 28; 32; 36; 40; 44; 48; 56; 60; 64]
  ∧ sizeof i386 AlignmentTestStruct = 68.
Proof. by vm_compute. Qed.

(** An [int8_t] followed by an [int32_t]: the second member is at offset 4,
    and the helper reports the gap of 3 bytes. *)
Example padding_scenario :
  offsetof x86_64
    (Tstruct "S" [("a", Tscalar Int8); ("b", Tscalar Int32)]%string) "b"
  = Some 4
  ∧ calculateAlignment x86_64 (0 + sizeof x86_64 (Tscalar Int8)) 4 = 3.
Proof. by vm_compute. Qed.

(** C6: the probe reads the first byte of the object that holds
    0x01020304; [is_little_endian] is 1 exactly when that byte is 0x04; on a
    little-endian platform the byte is 0x04 and the flag 1, on a big-endian
    one the byte is 0x01 and the flag 0. *)
Theorem C6_endianness_detection (A : abi) (indeterminate : arch_member → Z)
    (st : registry) :
  ∃ info st',
    getArchitectureInfo A indeterminate st = Returns (info, st') ∧
    uint32_bytes (byte_order A) 0x01020304 !! 0%nat
      = Some (endian_test_c0 A) ∧
    (is_little_endian info = 1 ↔ endian_test_c0 A = 0x04) ∧
    match byte_order A with
    | LittleEndian => endian_test_c0 A = 0x04 ∧ is_little_endian info = 1
    | BigEndian => endian_test_c0 A = 0x01 ∧ is_little_endian info = 0
    end.
Proof.
  eexists _, _. split; [apply getArchitectureInfo_value |]. simpl.
  unfold endian_test_c0. destruct (byte_order A); by vm_compute.
Qed.

(** C7: for a preceding field's end that is not beyond the current
    offset, [calculateAlignment] returns 1 when the two are equal and the
    gap [current_offset - prev_end] otherwise; for 1 and 4 it returns 3. *)
Theorem C7_calculateAlignment_gap (A : abi) (prev_end current_offset : Z) :
  abi_ok A →
  0 ≤ prev_end ≤ current_offset → current_offset < size_t_modulus A →
  (current_offset = prev_end →
   calculateAlignment A prev_end current_offset = 1) ∧
  (current_offset ≠ prev_end →
   calculateAlignment A prev_end current_offset = current_offset - prev_end) ∧
  calculateAlignment A 1 4 = 3.
Proof.
  intros HA Hle Hlt. pose proof (size_t_modulus_256 A HA) as HM.
  unfold calculateAlignment. repeat split.
  - intros ->. by rewrite Z.eqb_refl.
  - intros Hne. rewrite (proj2 (Z.eqb_neq _ _)) by done.
    apply to_size_t_small. lia.
  - simpl. apply to_size_t_small. lia.
Qed.

Lemma C7_calculateAlignment_gap_witness :
  (4 = 1 → calculateAlignment x86_64 1 4 = 1) ∧
  (4 ≠ 1 → calculateAlignment x86_64 1 4 = 4 - 1) ∧
  calculateAlignment x86_64 1 4 = 3.
Proof.
  apply (C7_calculateAlignment_gap x86_64 1 4 x86_64_ok);
    [lia | by vm_compute].
Defined.

(** C9: the probe returns on every call, from every program state and
    whatever the local object held at first; it hands the registry back
    unchanged; and any two calls on one platform return equal snapshots. *)
Theorem C9_probe_total_pure_deterministic (A : abi)
    (indeterminate1 indeterminate2 : arch_member → Z) (st1 st2 : registry) :
  ∃ info,
    getArchitectureInfo A indeterminate1 st1 = Returns (info, st1) ∧
    getArchitectureInfo A indeterminate2 st2 = Returns (info, st2).
Proof. eexists. split; apply getArchitectureInfo_value. Qed.


(* ===================================================================== *)
(** ** Further properties of the registry *)
(* ===================================================================== *)

(** Registration writes the [next] member only. *)
Lemma registry_add_info p st st' b :
  cgocopy_registry_add p st = Returns st' →
  info_at (nodes st') b = info_at (nodes st) b.
Proof.
  destruct p as [a|]; simpl; [| by intros [= <-]].
  destruct (nodes st !! a) as [n|] eqn:Ha; [| done].
  intros [= <-]. unfold info_at. simpl.
  destruct (decide (a = b)) as [<- |].
  - by rewrite lookup_insert_eq, Ha.
  - by rewrite lookup_insert_ne.
Qed.

(** Along a chain that ends in [NULL] the loop is a search through the
    descriptor pointers of the nodes, in chain order. *)
Lemma lookup_loop_chain h cursor l q :
  chain h cursor l →
  lookup_loop (length l) h cursor q
  = Returns (newest_match q (map (info_at h) l)).
Proof.
  induction 1 as [| a n l Ha Hc IH]; [done |].
  assert (info_at h a = info n) as Hi by (unfold info_at; by rewrite Ha).
  simpl. rewrite Ha, Hi.
  assert (node_matches {| info := info n; next := None |} q
          = node_matches n q) as -> by done.
  by destruct (node_matches n q).
Qed.

Lemma add_all_cons p ps st :
  add_all (p :: ps) st
  = add_all ps match cgocopy_registry_add p st with
               | Returns st' => st'
               | _ => st
               end.
Proof. done. Qed.

Lemma add_all_info ps st b :
  (∀ a, a ∈ ps → is_Some (nodes st !! a)) →
  info_at (nodes (add_all (map Some ps) st)) b = info_at (nodes st) b.
Proof.
  revert st. induction ps as [|a ps IH]; intros st Hps; [done |].
  destruct (Hps a) as [n Hn]; [left |].
  rewrite map_cons, add_all_cons.
  destruct (cgocopy_registry_add (Some a) st) as [st'| |] eqn:Hadd;
    [| by (unfold cgocopy_registry_add in Hadd; rewrite Hn in Hadd)..].
  rewrite IH, (registry_add_info _ _ _ _ Hadd); [done |].
  intros c Hc. destruct (Hps c) as [nc Hnc]; [by right |].
  unfold cgocopy_registry_add in Hadd. rewrite Hn in Hadd.
  injection Hadd as <-. simpl.
  destruct (decide (a = c)) as [<- |].
  - rewrite lookup_insert_eq. eauto.
  - rewrite lookup_insert_ne by done. eauto.
Qed.

(** X1: the registry is a stack.  After any sequence of registrations of
    pairwise different nodes on the empty registry, a lookup returns after
    at most as many iterations as there are nodes, and it returns the
    descriptor pointer of the node registered last among those that carry
    the name, or the null pointer if none does; nodes with a null
    descriptor pointer or a descriptor without a name are passed over. *)
Theorem X1_registry_is_a_stack
    (h : gmap addr cgocopy_struct_registry_node) (ps : list addr)
    (q : string) :
  NoDup ps → (∀ a, a ∈ ps → is_Some (h !! a)) →
  cgocopy_lookup_struct_info (length ps)
    (add_all (map Some ps) (registry_init h)) (Some q)
  = Returns (newest_match q (map (info_at h) (reverse ps))).
Proof.
  intros Hnd Hps.
  pose proof (add_all_chain ps (registry_init h) [] (chain_null _) Hnd)
    as Hc.
  rewrite app_nil_r in Hc.
  assert (∀ a, a ∈ ps → (a ∉ []) ∧ is_Some (h !! a)) as Hps'.
  { intros a Ha. split; [apply not_elem_of_nil | by apply Hps]. }
  specialize (Hc Hps').
  unfold cgocopy_lookup_struct_info.
  rewrite <- (length_reverse ps), (lookup_loop_chain _ _ _ q Hc).
  do 2 f_equal. apply map_ext. intros b.
  by apply (add_all_info ps (registry_init h) b).
Qed.

Lemma X1_registry_is_a_stack_witness :
  cgocopy_lookup_struct_info 3
    (add_all [Some 3; Some 1; Some 2]%positive (registry_init three_nodes))
    (Some "User"%string)
  = Returns (Some users_User_info).
Proof.
  apply (X1_registry_is_a_stack three_nodes [3; 1; 2]%positive "User").
  - apply (bool_decide_unpack _). by vm_compute.
  - intros a Ha. apply (bool_decide_unpack _).
    repeat (apply elem_of_cons in Ha as [-> | Ha]; [by vm_compute |]).
    by apply elem_of_nil in Ha.
Defined.

(** One constructor run on a registry that is a chain [l] with descriptor
    pointers [ds], for a node outside the chain. *)
Lemma cgocopy_register_chain st l a d :
  chain (nodes st) (cgocopy_registry_head st) l → a ∉ l →
  ∃ st', cgocopy_register a d st = Returns st' ∧
         chain (nodes st') (cgocopy_registry_head st') (a :: l) ∧
         map (info_at (nodes st')) (a :: l)
         = Some d :: map (info_at (nodes st)) l.
Proof.
  intros Hc Ha.
  set (st1 := {| nodes := <[a := {| info := Some d; next := None |}]>
                            (nodes st);
                 cgocopy_registry_head := cgocopy_registry_head st |}).
  assert (chain (nodes st1) (cgocopy_registry_head st1) l) as Hc1
    by (by apply chain_frame).
  assert (nodes st1 !! a = Some {| info := Some d; next := None |}) as Ha1
    by apply lookup_insert_eq.
  destruct (cgocopy_registry_add (Some a) st1) as [st'| |] eqn:Hadd;
    [| by (unfold cgocopy_registry_add in Hadd; rewrite Ha1 in Hadd)..].
  exists st'. split; [done |].
  split; [by eapply registry_add_chain |].
  simpl. f_equal.
  - rewrite (registry_add_info _ _ _ _ Hadd). unfold info_at.
    by rewrite Ha1.
  - apply map_ext_in. intros b Hb%list_elem_of_In.
    rewrite (registry_add_info _ _ _ _ Hadd). unfold info_at. simpl.
    rewrite lookup_insert_ne; [done |]. by intros ->.
Qed.

Lemma run_constructors_chain bs st l :
  chain (nodes st) (cgocopy_registry_head st) l →
  NoDup (map fst bs) → (∀ a, a ∈ map fst bs → a ∉ l) →
  chain (nodes (run_constructors bs st))
    (cgocopy_registry_head (run_constructors bs st))
    (reverse (map fst bs) ++ l) ∧
  map (info_at (nodes (run_constructors bs st))) (reverse (map fst bs) ++ l)
  = reverse (map (λ b, Some b.2) bs) ++ map (info_at (nodes st)) l.
Proof.
  revert st l. induction bs as [|[a d] bs IH]; intros st l Hc Hnd Hl;
    [done |].
  simpl in Hnd. apply NoDup_cons in Hnd as [Ha Hnd].
  destruct (cgocopy_register_chain st l a d Hc) as (st' & Hreg & Hc' & Hi').
  { apply Hl. left. }
  change (run_constructors ((a, d) :: bs) st)
    with (run_constructors bs
            match cgocopy_register a d st with
            | Returns st' => st'
            | _ => st
            end).
  rewrite Hreg. simpl map. rewrite !reverse_cons, <- !app_assoc. simpl.
  rewrite <- Hi'. apply IH; [done | done |].
  intros b Hb. apply not_elem_of_cons. split; [by intros -> |].
  apply Hl. by right.
Qed.

(** After the constructors of blocks with pairwise different nodes, a
    lookup is a search for the newest block of that name. *)
Lemma run_constructors_lookup h bs q :
  NoDup (map fst bs) →
  cgocopy_lookup_struct_info (length bs)
    (run_constructors bs (registry_init h)) (Some q)
  = Returns (newest_match q (reverse (map (λ b, Some b.2) bs))).
Proof.
  intros Hnd.
  destruct (run_constructors_chain bs (registry_init h) [] (chain_null _) Hnd)
    as [Hc Hi].
  { intros a _. apply not_elem_of_nil. }
  rewrite app_nil_r in Hc, Hi. simpl in Hi. rewrite app_nil_r in Hi.
  unfold cgocopy_lookup_struct_info.
  assert (length bs = length (reverse (map fst bs))) as ->
    by (by rewrite length_reverse, length_map).
  by rewrite (lookup_loop_chain _ _ _ q Hc), Hi.
Qed.

(** With pairwise different names the search finds the one block of the
    name wherever it stands. *)
Lemma newest_match_unique q ds d :
  NoDup (map s_name ds) → d ∈ ds → s_name d = Some q →
  newest_match q (map Some ds) = Some d.
Proof.
  induction ds as [|x ds IH]; intros Hnd Hd Hq; [by apply elem_of_nil in Hd |].
  simpl in Hnd. apply NoDup_cons in Hnd as [Hx Hnd]. simpl.
  destruct (node_matches {| info := Some x; next := None |} q) eqn:Hm.
  - apply node_matches_spec in Hm as (x' & [= <-] & Hxq).
    apply elem_of_cons in Hd as [-> | Hd]; [done |].
    destruct Hx. rewrite Hxq, <- Hq. by apply list_elem_of_fmap_2.
  - apply elem_of_cons in Hd as [-> | Hd]; [| by apply IH].
    assert (node_matches {| info := Some x; next := None |} q = true)
      as Hm'; [| congruence].
    apply node_matches_spec. eauto.
Qed.

Lemma newest_match_absent q ds :
  (∀ d, d ∈ ds → s_name d ≠ Some q) →
  newest_match q (map Some ds) = None.
Proof.
  induction ds as [|x ds IH]; intros Hno; [done |]. simpl.
  destruct (node_matches {| info := Some x; next := None |} q) eqn:Hm.
  - apply node_matches_spec in Hm as (x' & [= <-] & Hxq).
    destruct (Hno x); [left | done].
  - apply IH. intros d Hd. apply Hno. by right.
Qed.

(** The blocks of a reordered startup phase: the same nodes, the same
    names, the same descriptors. *)
Lemma reordered_blocks (cs bs : list (addr * cgocopy_struct_info)) :
  cs ≡ₚ bs → NoDup (map fst bs) → NoDup (map (λ b, s_name b.2) bs) →
  NoDup (map fst cs) ∧ NoDup (map s_name (reverse (map snd cs))) ∧
  ∀ d, d ∈ reverse (map snd cs) ↔ d ∈ map snd bs.
Proof.
  intros Hcs Hnd Hnames. split; [| split].
  - apply (NoDup_Permutation_proper _ _ (Permutation_map fst Hcs)), Hnd.
  - rewrite <- (map_map snd s_name bs) in Hnames.
    eapply NoDup_Permutation_proper; [| exact Hnames].
    apply Permutation_map.
    etrans; [apply reverse_Permutation |]. by apply Permutation_map.
  - intros d. rewrite elem_of_reverse, !list_elem_of_In.
    pose proof (Permutation_map snd Hcs) as Hp.
    split; apply Permutation_in; [done | by symmetry].
Qed.

(** X2: the order of the startup phase does not matter when names are
    unique.  After the constructor functions of blocks with pairwise
    different nodes and pairwise different names have run, in any order, on
    the empty registry, the lookup of the name of a block returns the
    descriptor of that block, and the lookup of any other name returns the
    null pointer. *)
Theorem X2_startup_order_irrelevant
    (h : gmap addr cgocopy_struct_registry_node)
    (bs : list (addr * cgocopy_struct_info)) (q : string) :
  NoDup (map fst bs) → NoDup (map (λ b, s_name b.2) bs) →
  (∀ a d, (a, d) ∈ bs → s_name d = Some q →
     cgocopy_lookup_struct_info (length bs)
       (run_constructors bs (registry_init h)) (Some q)
     = Returns (Some d)) ∧
  ((∀ a d, (a, d) ∈ bs → s_name d ≠ Some q) →
     cgocopy_lookup_struct_info (length bs)
       (run_constructors bs (registry_init h)) (Some q)
     = Returns None) ∧
  (∀ bs', bs' ≡ₚ bs →
     cgocopy_lookup_struct_info (length bs')
       (run_constructors bs' (registry_init h)) (Some q)
     = cgocopy_lookup_struct_info (length bs)
         (run_constructors bs (registry_init h)) (Some q)).
Proof.
  intros Hnd Hnames.
  assert (∀ cs : list (addr * cgocopy_struct_info),
            reverse (map (λ b, Some b.2) cs)
            = map Some (reverse (map snd cs))) as Hrev.
  { intros cs. induction cs as [|c cs IH]; [done |]. simpl.
    by rewrite !reverse_cons, map_app, IH. }
  assert (∀ cs d, cs ≡ₚ bs → d ∈ map snd bs → s_name d = Some q →
            cgocopy_lookup_struct_info (length cs)
              (run_constructors cs (registry_init h)) (Some q)
            = Returns (Some d)) as Hfound.
  { intros cs d Hcs Hd Hq.
    destruct (reordered_blocks cs bs Hcs Hnd Hnames) as (Hnd' & Hn' & Hel).
    rewrite run_constructors_lookup, Hrev by done. f_equal.
    apply newest_match_unique; [done | by apply Hel | done]. }
  assert (∀ cs, cs ≡ₚ bs → (∀ d, d ∈ map snd bs → s_name d ≠ Some q) →
            cgocopy_lookup_struct_info (length cs)
              (run_constructors cs (registry_init h)) (Some q)
            = Returns None) as Habsent.
  { intros cs Hcs Hno.
    destruct (reordered_blocks cs bs Hcs Hnd Hnames) as (Hnd' & Hn' & Hel).
    rewrite run_constructors_lookup, Hrev by done. f_equal.
    apply newest_match_absent. intros d Hd. by apply Hno, Hel. }
  split; [| split].
  - intros a d Hin Hq. apply Hfound; [done | | done].
    apply (list_elem_of_fmap_2 snd _ (a, d) Hin).
  - intros Hno. apply Habsent; [done |].
    intros d [[a d'] [-> Hin]]%list_elem_of_fmap. by eapply Hno.
  - intros bs' Hbs'.
    destruct (decide (Exists (λ d, s_name d = Some q) (map snd bs)))
      as [Hex | Hno].
    + apply Exists_exists in Hex as (d & Hd & Hq).
      by rewrite !(Hfound _ d).
    + rewrite !Habsent; try done.
      all: intros d Hd Hq; apply Hno, Exists_exists; eauto.
Qed.

Lemma X2_startup_order_irrelevant_witness :
  (∀ a d, (a, d) ∈ [(1%positive, User_info); (3%positive, Point3D_info)] →
     s_name d = Some "Point3D"%string →
     cgocopy_lookup_struct_info 2
       (run_constructors [(1%positive, User_info); (3%positive, Point3D_info)]
          (registry_init ∅)) (Some "Point3D"%string)
     = Returns (Some d)) ∧
  ((∀ a d, (a, d) ∈ [(1%positive, User_info); (3%positive, Point3D_info)] →
      s_name d ≠ Some "Point3D"%string) →
     cgocopy_lookup_struct_info 2
       (run_constructors [(1%positive, User_info); (3%positive, Point3D_info)]
          (registry_init ∅)) (Some "Point3D"%string)
     = Returns None) ∧
  (∀ bs', bs' ≡ₚ [(1%positive, User_info); (3%positive, Point3D_info)] →
     cgocopy_lookup_struct_info (length bs')
       (run_constructors bs' (registry_init ∅)) (Some "Point3D"%string)
     = cgocopy_lookup_struct_info 2
         (run_constructors
            [(1%positive, User_info); (3%positive, Point3D_info)]
            (registry_init ∅)) (Some "Point3D"%string)).
Proof.
  apply (X2_startup_order_irrelevant ∅
           [(1%positive, User_info); (3%positive, Point3D_info)] "Point3D");
    apply (bool_decide_unpack _); by vm_compute.
Defined.

(** A chain that ends in [NULL] is determined by where it starts. *)
Lemma chain_functional h cursor l l' :
  chain h cursor l → chain h cursor l' → l = l'.
Proof.
  intros Hc. revert l'.
  induction Hc as [| a n l Ha Hc IH]; intros l' Hc'; inversion Hc'; subst;
    [done |].
  f_equal. apply IH. congruence.
Qed.

(** From a node linked into a chain that ends in [NULL], the rest of the
    chain ends in [NULL] as well, and is not longer. *)
Lemma chain_from_linked h cursor l a :
  chain h cursor l → linked h cursor a →
  ∃ l', chain h (Some a) l' ∧ (length l' ≤ length l)%nat.
Proof.
  intros Hc Hl. revert l Hc.
  induction Hl as [a n Ha | a n b Ha Hl IH]; intros l Hc.
  - by exists l.
  - inversion Hc as [| a' n' l0 Ha' Hc0]; subst.
    assert (n' = n) as -> by congruence.
    destruct (IH _ Hc0) as (l' & Hc' & Hlen).
    exists l'. split; [done |]. simpl. lia.
Qed.

(** Writing to a linked node keeps it linked: the links that lead to its
    first occurrence are not touched. *)
Lemma linked_after_write h cursor a x :
  linked h cursor a → linked (<[a := x]> h) cursor a.
Proof.
  induction 1 as [a n Ha | c n a Hc Hl IH].
  - eapply linked_here, lookup_insert_eq.
  - destruct (decide (a = c)) as [<- |].
    + eapply linked_here, lookup_insert_eq.
    + eapply linked_later; [by rewrite lookup_insert_ne | done].
Qed.

(** The loop reports a miss only at the end of a chain. *)
Lemma lookup_loop_miss_chain fuel h cursor q :
  lookup_loop fuel h cursor q = Returns None → ∃ l, chain h cursor l.
Proof.
  revert cursor. induction fuel as [|fuel IH]; intros [a|]; simpl;
    try done; try (intros _; exists []; constructor).
  destruct (h !! a) as [n|] eqn:Ha; [| done].
  destruct (node_matches n q) eqn:Hm.
  - intros [= Hi]. apply node_matches_spec in Hm as (d & Hd & _).
    congruence.
  - intros [l Hl]%IH. exists (a :: l). by econstructor.
Qed.

(** X3: registering a node that is already linked makes the registry
    cyclic, wherever in the chain the node is.  No walk from the head ends
    in [NULL] any more, so the lookup of a name that is not null never
    reports a miss: it returns a descriptor that carries the name or does
    not return at all, and for a name under which nothing is registered it
    does not return.  Only the lookup with a null name, which returns
    before the walk, still returns the null pointer. *)
Theorem X3_relinking_makes_cycle (st st' : registry) (a : addr) :
  linked (nodes st) (cgocopy_registry_head st) a →
  cgocopy_registry_add (Some a) st = Returns st' →
  (∀ l, ¬ chain (nodes st') (cgocopy_registry_head st') l) ∧
  (∀ fuel q, cgocopy_lookup_struct_info fuel st' (Some q) ≠ Returns None) ∧
  (∀ fuel q r,
     cgocopy_lookup_struct_info fuel st' (Some q) = Returns r →
     ∃ d, r = Some d ∧ s_name d = Some q) ∧
  (∀ q, ¬ registered st' q →
        ∀ fuel r, cgocopy_lookup_struct_info fuel st' (Some q) ≠ Returns r) ∧
  (∀ fuel, cgocopy_lookup_struct_info fuel st' None = Returns None).
Proof.
  intros Hl Hadd.
  assert (∀ l, ¬ chain (nodes st') (cgocopy_registry_head st') l) as Hcyc.
  { unfold cgocopy_registry_add in Hadd.
    destruct (nodes st !! a) as [n|] eqn:Ha; [| done].
    injection Hadd as <-. simpl. intros l Hc.
    inversion Hc as [| a' n' l0 Ha' Hc0]; subst.
    rewrite lookup_insert_eq in Ha'. injection Ha' as <-. simpl in Hc0.
    pose proof (linked_after_write _ _ _
                  {| info := info n; next := cgocopy_registry_head st |} Hl)
      as Hl'.
    destruct (chain_from_linked _ _ _ _ Hc0 Hl') as (l' & Hc' & Hlen).
    pose proof (chain_functional _ _ _ _ Hc Hc') as <-. simpl in Hlen. lia. }
  assert (∀ fuel q,
            cgocopy_lookup_struct_info fuel st' (Some q) ≠ Returns None)
    as Hmiss.
  { intros fuel q Hr. simpl in Hr.
    apply lookup_loop_miss_chain in Hr as [l Hc]. by eapply Hcyc. }
  split; [done |]. split; [done |]. split; [| split; [| done]].
  - intros fuel q [d|] Hr; [| by destruct (Hmiss fuel q)].
    exists d. split; [done |]. simpl in Hr.
    by apply lookup_loop_sound in Hr as [? _].
  - intros q Hnr fuel [d|] Hr; [| by destruct (Hmiss fuel q)].
    simpl in Hr.
    apply lookup_loop_sound in Hr as (Hn & b & nb & Hb & Hnb & Hi).
    apply Hnr. by exists b, nb, d.
Qed.

Lemma X3_relinking_makes_cycle_witness :
  (∀ l, ¬ chain (nodes registry_relinked)
            (cgocopy_registry_head registry_relinked) l) ∧
  (∀ fuel q,
     cgocopy_lookup_struct_info fuel registry_relinked (Some q)
     ≠ Returns None) ∧
  (∀ fuel q r,
     cgocopy_lookup_struct_info fuel registry_relinked (Some q) = Returns r →
     ∃ d, r = Some d ∧ s_name d = Some q) ∧
  (∀ q, ¬ registered registry_relinked q →
        ∀ fuel r,
          cgocopy_lookup_struct_info fuel registry_relinked (Some q)
          ≠ Returns r) ∧
  (∀ fuel, cgocopy_lookup_struct_info fuel registry_relinked None
           = Returns None).
Proof.
  apply (X3_relinking_makes_cycle registry_123 registry_relinked 2%positive).
  - eapply linked_later; [by vm_compute |].
    eapply linked_here. by vm_compute.
  - by vm_compute.
Defined.

(* ===================================================================== *)
(** ** Properties of the second generation macros *)
(* ===================================================================== *)

Section macros2.

Context (A : abi) (HA : abi_ok A) (T : scalar → scalar).




End macros2.




(** X5: the element count of [CGOCOPY_ARRAY_FIELD] never overstates the
    field.  For any member and any element type of positive size,
    [array_len] elements of that type fit into the field and one more does
    not; for a member declared as an array of [n] elements of the given
    type, [array_len] is [n] and the size is [n] times the element size. *)
Theorem X5_array_len_fits (A : abi) (structtype : ctype) (field : string)
    (elemtype ty : ctype) :
  abi_ok A → complete structtype = true → complete elemtype = true →
  member_type structtype field = Some ty →
  ∃ fi,
    Macros2.CGOCOPY_ARRAY_FIELD A structtype field elemtype = Some fi ∧
    Macros2.array_len fi
    = Macros2.CGOCOPY_SAFE_ARRAY_LEN A ty elemtype ∧
    0 ≤ Macros2.array_len fi ∧
    Macros2.array_len fi * sizeof A elemtype ≤ Macros2.size fi ∧
    Macros2.size fi < (Macros2.array_len fi + 1) * sizeof A elemtype ∧
    (∀ n, ty = Tarray elemtype n →
          Macros2.array_len fi = n ∧ Macros2.size fi = n * sizeof A elemtype).
Proof.
  intros HA Hcs Hc Hty.
  destruct (complete_positive A HA elemtype Hc) as [Hpos _].
  destruct structtype as [| | tag ms]; try done. simpl in Hty.
  assert (0 < sizeof A ty) as Hsz.
  { pose proof (complete_members_positive A HA tag ms Hcs) as Hall.
    rewrite Forall_forall in Hall.
    by destruct (Hall _ (member_lookup_elem _ _ _ Hty)). }
  destruct (member_offset_is_Some A ms field _ 0 Hty) as [off Hoff].
  unfold Macros2.CGOCOPY_ARRAY_FIELD. simpl. rewrite Hoff, Hty. simpl.
  eexists. split; [done |]. simpl. split; [done |].
  pose proof (Z.div_mod (sizeof A ty) (sizeof A elemtype)) as Hdm.
  pose proof (Z.mod_pos_bound (sizeof A ty) (sizeof A elemtype) Hpos) as Hm.
  split; [apply Z.div_pos; lia |]. split; [lia |]. split; [lia |].
  intros n ->. simpl. split; [| lia].
  rewrite Z.mul_comm. apply Z.div_mul. lia.
Qed.

Lemma X5_array_len_fits_witness :
  ∃ fi,
    Macros2.CGOCOPY_ARRAY_FIELD x86_64 Student "grades" (Tscalar Int)
    = Some fi ∧
    Macros2.array_len fi
    = Macros2.CGOCOPY_SAFE_ARRAY_LEN x86_64 (Tarray (Tscalar Int) 5)
        (Tscalar Int) ∧
    0 ≤ Macros2.array_len fi ∧
    Macros2.array_len fi * sizeof x86_64 (Tscalar Int) ≤ Macros2.size fi ∧
    Macros2.size fi
    < (Macros2.array_len fi + 1) * sizeof x86_64 (Tscalar Int) ∧
    (∀ n, Tarray (Tscalar Int) 5 = Tarray (Tscalar Int) n →
          Macros2.array_len fi = n
          ∧ Macros2.size fi = n * sizeof x86_64 (Tscalar Int)).
Proof.
  apply (X5_array_len_fits x86_64 Student "grades" (Tscalar Int)
           (Tarray (Tscalar Int) 5) x86_64_ok); by vm_compute.
Defined.

(** X6: [CGOCOPY_FIELD] never reports an array.  For a member declared
    as an array it stores the size of the whole array with [is_array] and
    [array_len] both 0; the type name is "string" with [is_pointer] 1 when
    the elements are [char], and "struct" with [is_pointer] 0 for any other
    element type. *)
Theorem X6_field_macro_hides_arrays (A : abi) (T : scalar → scalar)
    (structtype : ctype) (field : string) (elem : ctype) (n : Z) :
  member_type structtype field = Some (Tarray elem n) →
  ∃ fi,
    Macros2.CGOCOPY_FIELD A T structtype field = Some fi ∧
    Macros2.is_array fi = 0 ∧ Macros2.array_len fi = 0 ∧
    Macros2.size fi = sizeof A elem * n ∧
    ((∃ s, elem = Tscalar s ∧ T s = Char) →
     Macros2.type fi = Some "string"%string ∧ Macros2.is_pointer fi = 1) ∧
    ((∀ s, elem = Tscalar s → T s ≠ Char) →
     Macros2.type fi = Some "struct"%string ∧ Macros2.is_pointer fi = 0).
Proof.
  intros Hty.
  destruct structtype as [| | tag ms]; try done. simpl in Hty.
  destruct (member_offset_is_Some A ms field _ 0 Hty) as [off Hoff].
  unfold Macros2.CGOCOPY_FIELD. simpl. rewrite Hoff, Hty. simpl.
  eexists. split; [done |]. simpl. do 3 (split; [done |]).
  unfold Macros2.CGOCOPY_TYPE_NAME, Macros2.CGOCOPY_IS_POINTER_TYPE. simpl.
  split.
  - intros (s & -> & Hs). by rewrite Hs.
  - intros Hno. destruct elem as [s | |]; try done.
    specialize (Hno s eq_refl). by destruct (T s).
Qed.

Lemma X6_field_macro_hides_arrays_witness :
  ∃ fi,
    Macros2.CGOCOPY_FIELD x86_64 Macros2.lp64_typedefs Student "grades"
    = Some fi ∧
    Macros2.is_array fi = 0 ∧ Macros2.array_len fi = 0 ∧
    Macros2.size fi = sizeof x86_64 (Tscalar Int) * 5 ∧
    ((∃ s, Tscalar Int = Tscalar s ∧ Macros2.lp64_typedefs s = Char) →
     Macros2.type fi = Some "string"%string ∧ Macros2.is_pointer fi = 1) ∧
    ((∀ s, Tscalar Int = Tscalar s → Macros2.lp64_typedefs s ≠ Char) →
     Macros2.type fi = Some "struct"%string ∧ Macros2.is_pointer fi = 0).
Proof.
  apply (X6_field_macro_hides_arrays x86_64 Macros2.lp64_typedefs Student
           "grades" (Tscalar Int) 5).
  reflexivity.
Defined.

Lemma lp64_typedefs_ok : Macros2.typedefs_ok x86_64 Macros2.lp64_typedefs.
Proof. by intros []. Qed.

Lemma ilp32_typedefs_ok : Macros2.typedefs_ok i386 Macros2.ilp32_typedefs.
Proof. by intros []. Qed.

Lemma x86_64_widths_as_named : Macros2.widths_as_named x86_64.
Proof. by repeat split. Qed.

(** X7: where [short], [int], [long], [long long], [float] and [double]
    are 2, 4, 8, 8, 4 and 8 bytes, the width in the type name that
    [CGOCOPY_FIELD] gives a scalar member is the size it stores: 1 byte for
    "int8" and "uint8", 2 for "int16" and "uint16", 4 for "int32", "uint32"
    and "float32", 8 for "int64", "uint64" and "float64". *)
Theorem X7_type_name_width (A : abi) (T : scalar → scalar)
    (structtype : ctype) (field : string) (s : scalar) :
  Macros2.widths_as_named A → Macros2.typedefs_ok A T →
  member_type structtype field = Some (Tscalar s) →
  ∃ fi,
    Macros2.CGOCOPY_FIELD A T structtype field = Some fi ∧
    (Macros2.type fi = Some "int8"%string
     ∨ Macros2.type fi = Some "uint8"%string → Macros2.size fi = 1) ∧
    (Macros2.type fi = Some "int16"%string
     ∨ Macros2.type fi = Some "uint16"%string → Macros2.size fi = 2) ∧
    (Macros2.type fi = Some "int32"%string
     ∨ Macros2.type fi = Some "uint32"%string
     ∨ Macros2.type fi = Some "float32"%string → Macros2.size fi = 4) ∧
    (Macros2.type fi = Some "int64"%string
     ∨ Macros2.type fi = Some "uint64"%string
     ∨ Macros2.type fi = Some "float64"%string → Macros2.size fi = 8).
Proof.
  intros (?&?&?&?&?&?&?&?&?&?&?&?&?) HT Hty.
  destruct structtype as [| | tag ms]; try done. simpl in Hty.
  destruct (member_offset_is_Some A ms field _ 0 Hty) as [off Hoff].
  unfold Macros2.CGOCOPY_FIELD. simpl. rewrite Hoff, Hty. simpl.
  eexists. split; [done |]. simpl.
  unfold Macros2.CGOCOPY_TYPE_NAME. simpl. rewrite <- (HT s).
  destruct (T s); repeat split; intros Hn; by intuition congruence.
Qed.

Lemma X7_type_name_width_witness :
  ∃ fi,
    Macros2.CGOCOPY_FIELD x86_64 Macros2.lp64_typedefs users_User "id"
    = Some fi ∧
    (Macros2.type fi = Some "int8"%string
     ∨ Macros2.type fi = Some "uint8"%string → Macros2.size fi = 1) ∧
    (Macros2.type fi = Some "int16"%string
     ∨ Macros2.type fi = Some "uint16"%string → Macros2.size fi = 2) ∧
    (Macros2.type fi = Some "int32"%string
     ∨ Macros2.type fi = Some "uint32"%string
     ∨ Macros2.type fi = Some "float32"%string → Macros2.size fi = 4) ∧
    (Macros2.type fi = Some "int64"%string
     ∨ Macros2.type fi = Some "uint64"%string
     ∨ Macros2.type fi = Some "float64"%string → Macros2.size fi = 8).
Proof.
  apply (X7_type_name_width x86_64 Macros2.lp64_typedefs users_User "id"
           UInt32 x86_64_widths_as_named lp64_typedefs_ok).
  reflexivity.
Defined.

(** On i386 a [long] member is named "int64" and is 4 bytes large. *)
Example long_member_on_i386 :
  Macros2.CGOCOPY_FIELD i386 Macros2.ilp32_typedefs
    (Tstruct "S" [("n", Tscalar Long)]%string) "n"
  = Some {| Macros2.name := Some "n"%string;
            Macros2.type := Some "int64"%string;
            Macros2.offset := 0; Macros2.size := 4;
            Macros2.is_pointer := 0; Macros2.is_array := 0;
            Macros2.array_len := 0 |}.
Proof. reflexivity. Qed.

(** X8: [CGOCOPY_TYPE_SIZE(x)] is [sizeof(x)] for every scalar, every
    struct and every array except an array of [char], for which it is the
    size of a pointer to [char]. *)
Theorem X8_type_size_is_sizeof (A : abi) (T : scalar → scalar) (x : ctype) :
  Macros2.typedefs_ok A T →
  ((∀ s n, x = Tarray (Tscalar s) n → T s ≠ Char) →
   Macros2.CGOCOPY_TYPE_SIZE A T x = sizeof A x) ∧
  (∀ s n, x = Tarray (Tscalar s) n → T s = Char →
          Macros2.CGOCOPY_TYPE_SIZE A T x = sizeof A (Tscalar CharPtr)).
Proof.
  intros HT. unfold Macros2.CGOCOPY_TYPE_SIZE. split.
  - intros Hno. destruct x as [s | [s | |] n | tag ms]; simpl; try done.
    + rewrite <- (HT s). by destruct (T s).
    + specialize (Hno s n eq_refl). by destruct (T s).
  - intros s n -> Hs. simpl. by rewrite Hs.
Qed.

Lemma X8_type_size_is_sizeof_witness :
  ((∀ s n, Student = Tarray (Tscalar s) n → Macros2.lp64_typedefs s ≠ Char) →
   Macros2.CGOCOPY_TYPE_SIZE x86_64 Macros2.lp64_typedefs Student
   = sizeof x86_64 Student) ∧
  (∀ s n, Student = Tarray (Tscalar s) n → Macros2.lp64_typedefs s = Char →
          Macros2.CGOCOPY_TYPE_SIZE x86_64 Macros2.lp64_typedefs Student
          = sizeof x86_64 (Tscalar CharPtr)).
Proof.
  exact (X8_type_size_is_sizeof x86_64 Macros2.lp64_typedefs Student
           lp64_typedefs_ok).
Defined.

(* ===================================================================== *)
(** ** Further properties of the architecture probe *)
(* ===================================================================== *)

Lemma align_up_lt (n a : Z) : 0 < a → align_up n a < n + a.
Proof.
  intros Ha. unfold align_up.
  pose proof (Z.div_mod (n + a - 1) a) as Hdm.
  pose proof (Z.mod_pos_bound (n + a - 1) a Ha) as Hm. lia.
Qed.

Lemma align_up_0 (a : Z) : 0 < a → align_up 0 a = 0.
Proof.
  intros Ha. unfold align_up. rewrite Z.div_small by lia. done.
Qed.

(** X9: for all [size_t] arguments [calculateAlignment] returns a value
    between 1 and [SIZE_MAX], never 0; when the current offset is below the
    preceding end, the subtraction wraps around and the result is
    [SIZE_MAX + 1 - (prev_end - current_offset)]. *)
Theorem X9_calculateAlignment_range (A : abi) (prev_end current_offset : Z) :
  abi_ok A →
  0 ≤ prev_end < size_t_modulus A → 0 ≤ current_offset < size_t_modulus A →
  1 ≤ calculateAlignment A prev_end current_offset < size_t_modulus A ∧
  (current_offset < prev_end →
   calculateAlignment A prev_end current_offset
   = size_t_modulus A - (prev_end - current_offset)).
Proof.
  intros HA Hp Hc. pose proof (size_t_modulus_256 A HA) as HM.
  unfold calculateAlignment, to_size_t.
  destruct (Z.eqb_spec current_offset prev_end) as [-> | Hne].
  - split; lia.
  - destruct (Z.lt_ge_cases current_offset prev_end) as [Hlt | Hge].
    + assert ((current_offset - prev_end) mod size_t_modulus A
              = size_t_modulus A - (prev_end - current_offset)) as ->.
      { symmetry. apply (Z.mod_unique _ _ (-1)); lia. }
      split; [lia | done].
    + rewrite Z.mod_small by lia. split; lia.
Qed.

Lemma X9_calculateAlignment_range_witness :
  1 ≤ calculateAlignment x86_64 4 1 < size_t_modulus x86_64 ∧
  (1 < 4 →
   calculateAlignment x86_64 4 1 = size_t_modulus x86_64 - (4 - 1)).
Proof.
  apply (X9_calculateAlignment_range x86_64 4 1 x86_64_ok); by vm_compute.
Defined.

(** X10: the helper underestimates.  Given the end of one member and the
    offset at which the next member, of alignment [a], is placed after it,
    [calculateAlignment] returns 1 when there is no padding and the number
    of padding bytes otherwise, which is below [a]: it returns the
    alignment itself only when that is 1. *)
Theorem X10_calculateAlignment_underestimates (A : abi) (prev_end a : Z) :
  abi_ok A → 0 ≤ prev_end → 0 < a →
  align_up prev_end a < size_t_modulus A →
  1 ≤ calculateAlignment A prev_end (align_up prev_end a) ≤ Z.max 1 (a - 1) ∧
  (calculateAlignment A prev_end (align_up prev_end a) = a → a = 1).
Proof.
  intros HA Hp Ha HM.
  pose proof (align_up_ge prev_end a Ha) as Hge.
  pose proof (align_up_lt prev_end a Ha) as Hlt.
  unfold calculateAlignment, to_size_t.
  destruct (Z.eqb_spec (align_up prev_end a) prev_end) as [Heq | Hne].
  - split; lia.
  - rewrite Z.mod_small by lia. split; lia.
Qed.

Lemma X10_calculateAlignment_underestimates_witness :
  1 ≤ calculateAlignment x86_64 1 (align_up 1 4) ≤ Z.max 1 (4 - 1) ∧
  (calculateAlignment x86_64 1 (align_up 1 4) = 4 → 4 = 1).
Proof.
  apply (X10_calculateAlignment_underestimates x86_64 1 4 x86_64_ok);
    [lia | lia | by vm_compute].
Defined.

(** Turns every [align_up] term of the goal, innermost first, into a
    variable that is known to be no smaller than the position aligned. *)
Ltac bound_align_up A HA :=
  repeat match goal with
  | |- context [align_up ?n (alignof_scalar A ?s)] =>
      lazymatch n with
      | context [align_up _ _] => fail
      | _ => idtac
      end;
      let H := fresh "Hal" in
      pose proof (align_up_ge n _ (align_pos A HA s)) as H;
      generalize dependent (align_up n (alignof_scalar A s)); intros
  end.

(** X11: on every platform the snapshot is consistent with itself.  The
    first member of the test struct is at offset 0, the reported offsets
    increase in the declaration order of the members, each reported member
    ends, by its reported size, no later than the next one starts, and the
    last one ends inside the reported size of the struct. *)
Theorem X11_snapshot_offsets_ordered (A : abi)
    (indeterminate : arch_member → Z) (st : registry) :
  abi_ok A →
  ∃ i st',
    getArchitectureInfo A indeterminate st = Returns (i, st') ∧
    int8_offset i = 0 ∧
    int8_offset i + int8_size i ≤ int32_offset i ∧
    int32_offset i + int32_size i ≤ int64_offset i ∧
    int64_offset i + int64_size i ≤ int16_offset i ∧
    int16_offset i + int16_size i ≤ double_offset i ∧
    double_offset i + double_size i < pointer_offset i ∧
    pointer_offset i + pointer_size i ≤ uint8_offset i ∧
    uint8_offset i + uint8_size i ≤ uint32_offset i ∧
    uint32_offset i + uint32_size i ≤ uint16_offset i ∧
    uint16_offset i + uint16_size i ≤ uint64_offset i ∧
    uint64_offset i + uint64_size i ≤ float_offset i ∧
    float_offset i + float_size i ≤ charptr_offset i ∧
    charptr_offset i < sizet_offset i ∧
    sizet_offset i + sizet_size i ≤ test_struct_size i.
Proof.
  intros HA. eexists _, _. split; [apply getArchitectureInfo_value |].
  cbn [int8_offset int16_offset int32_offset int64_offset uint8_offset
       uint16_offset uint32_offset uint64_offset float_offset double_offset
       pointer_offset charptr_offset sizet_offset test_struct_size
       int8_size int16_size int32_size int64_size uint8_size uint16_size
       uint32_size uint64_size float_size double_size pointer_size
       sizet_size].
  unfold AlignmentTestStruct. rewrite (sizeof_struct A).
  match goal with
  | |- context [align_up (members_end A 0 ?ms) ?a] =>
      pose proof (align_up_ge (members_end A 0 ms) a (members_align_pos A ms))
        as Hend;
      revert Hend; generalize (align_up (members_end A 0 ms) a); intros total
  end.
  unfold test_offset, offsetof, AlignmentTestStruct.
  cbn -[align_up Z.add Z.le Z.lt].
  rewrite (align_up_0 _ (align_pos A HA Int8)).
  pose proof (size_pos A HA) as Hsz.
  pose proof (Hsz Int8). pose proof (Hsz Int16). pose proof (Hsz Int32).
  pose proof (Hsz Int64). pose proof (Hsz UInt8). pose proof (Hsz UInt16).
  pose proof (Hsz UInt32). pose proof (Hsz UInt64). pose proof (Hsz Float).
  pose proof (Hsz Double). pose proof (Hsz VoidPtr). pose proof (Hsz CharPtr).
  pose proof (Hsz SizeT). clear Hsz.
  bound_align_up A HA.
  repeat match goal with
  | |- context [decide (?a = ?b)] =>
      destruct (decide (a = b)); [try discriminate | try congruence]
  end.
  simpl. lia.
Qed.

Lemma X11_snapshot_offsets_ordered_witness :
  ∃ i st',
    getArchitectureInfo x86_64 (λ _, 0) (registry_init ∅)
    = Returns (i, st') ∧
    int8_offset i = 0 ∧
    int8_offset i + int8_size i ≤ int32_offset i ∧
    int32_offset i + int32_size i ≤ int64_offset i ∧
    int64_offset i + int64_size i ≤ int16_offset i ∧
    int16_offset i + int16_size i ≤ double_offset i ∧
    double_offset i + double_size i < pointer_offset i ∧
    pointer_offset i + pointer_size i ≤ uint8_offset i ∧
    uint8_offset i + uint8_size i ≤ uint32_offset i ∧
    uint32_offset i + uint32_size i ≤ uint16_offset i ∧
    uint16_offset i + uint16_size i ≤ uint64_offset i ∧
    uint64_offset i + uint64_size i ≤ float_offset i ∧
    float_offset i + float_size i ≤ charptr_offset i ∧
    charptr_offset i < sizet_offset i ∧
    sizet_offset i + sizet_size i ≤ test_struct_size i.
Proof.
  exact (X11_snapshot_offsets_ordered x86_64 (λ _, 0) (registry_init ∅)
           x86_64_ok).
Defined.

(* ===================================================================== *)
(** ** Further properties of the field macros of [cgocopy_metadata.h] *)
(* ===================================================================== *)

(** X12: what the six field macros keep true of every entry.  The type
    name is never null; [is_string] is set exactly for the string kind,
    whose type name is "char*"; the element type is the type name for the
    array kind and null for every other kind, whose element count is 0. *)
Theorem X12_field_entry_consistent (A : abi) (struct_type : ctype)
    (field_name : string) (fi : cgocopy_field_info) :
  field_entry A struct_type field_name fi →
  f_type_name fi ≠ None ∧
  (f_is_string fi = true ↔ f_kind fi = CGOCOPY_FIELD_STRING_KIND) ∧
  (f_kind fi = CGOCOPY_FIELD_STRING_KIND →
   f_type_name fi = Some "char*"%string) ∧
  (f_kind fi = CGOCOPY_FIELD_ARRAY_KIND → f_elem_type fi = f_type_name fi) ∧
  (f_kind fi ≠ CGOCOPY_FIELD_ARRAY_KIND →
   f_elem_type fi = None ∧ f_elem_count fi = 0).
Proof.
  destruct 1 as [c fi H | c fi H | fi H | c fi H | c n fi H | c n fi H];
    unfold CGOCOPY_FIELD_PRIMITIVE, CGOCOPY_FIELD_POINTER,
      CGOCOPY_FIELD_STRING, CGOCOPY_FIELD_STRUCT, CGOCOPY_FIELD_ARRAY,
      CGOCOPY_FIELD_ARRAY_STRUCT, CGOCOPY_INTERNAL_FIELD_INIT in H;
    destruct (offsetof A struct_type field_name) as [off|]; try done;
    destruct (member_type struct_type field_name) as [ty|]; try done;
    simpl in H; injection H as <-; simpl;
    unfold to_size_t; rewrite ?Zmod_0_l;
    repeat split; try done; try congruence.
Qed.

Lemma X12_field_entry_consistent_witness :
  ∃ fi,
    CGOCOPY_FIELD_STRING x86_64 User "username" = Some fi ∧
    f_type_name fi ≠ None ∧
    (f_is_string fi = true ↔ f_kind fi = CGOCOPY_FIELD_STRING_KIND) ∧
    (f_kind fi = CGOCOPY_FIELD_STRING_KIND →
     f_type_name fi = Some "char*"%string) ∧
    (f_kind fi = CGOCOPY_FIELD_ARRAY_KIND →
     f_elem_type fi = f_type_name fi) ∧
    (f_kind fi ≠ CGOCOPY_FIELD_ARRAY_KIND →
     f_elem_type fi = None ∧ f_elem_count fi = 0).
Proof.
  eexists. split; [reflexivity |].
  apply (X12_field_entry_consistent x86_64 User "username").
  by apply entry_string.
Defined.

(* ===================================================================== *)
(** ** Properties of the constructors and destructors *)
(* ===================================================================== *)

Section allocation.

Context {object : Type} (alloc : allocator) (Halloc : allocator_ok alloc).

(** A request fails and leaves the objects alone, or it adds the new object
    at an address that was not in use. *)
Lemma allocate_spec (init : object) (m : memory object) :
  ∃ p m',
    allocate alloc init m = Returns (p, m') ∧
    requests m' = S (requests m) ∧
    p = alloc (requests m) (dom (objects m)) ∧
    match p with
    | None => objects m' = objects m
    | Some a => objects m !! a = None ∧ objects m' = <[a := init]> (objects m)
    end.
Proof.
  unfold allocate.
  destruct (alloc (requests m) (dom (objects m))) as [a|] eqn:Ha;
    eexists _, _; (split; [done |]); (split; [done |]); (split; [done |]);
    simpl; [| done].
  split; [| done]. apply not_elem_of_dom. by eapply Halloc.
Qed.

End allocation.

Section integration.

Import Integration.

Context {double : Type} (alloc : allocator) (Halloc : allocator_ok alloc).

Lemma assign_User_spec (a : addr) (r : User_value)
    (f : User_value → User_value) (m : memory (object double)) :
  objects m !! a = Some (User_object r) →
  assign_User (Some a) f m
  = Returns (tt, {| objects := <[a := User_object (f r)]> (objects m);
                    requests := requests m |}).
Proof.
  intros Ha. unfold assign_User, prog_bind, load, store. by rewrite Ha, Ha.
Qed.

Lemma assign_GameObject_spec (a : addr) (g : GameObject_value double)
    (f : GameObject_value double → GameObject_value double)
    (m : memory (object double)) :
  objects m !! a = Some (GameObject_object g) →
  assign_GameObject (Some a) f m
  = Returns (tt, {| objects := <[a := GameObject_object (f g)]> (objects m);
                    requests := requests m |}).
Proof.
  intros Ha. unfold assign_GameObject, prog_bind, load, store.
  by rewrite Ha, Ha.
Qed.

(** A copy is made at an address that was not in use, or not at all. *)
Lemma strdup_spec (s : string) (m : memory (object double)) :
  ∃ p m',
    strdup alloc CharArray (Some s) m = Returns (p, m') ∧
    requests m' = S (requests m) ∧
    (∀ a, p = Some a → objects m !! a = None) ∧
    objects m' = with_object p (CharArray s) (objects m).
Proof.
  destruct (allocate_spec alloc Halloc (CharArray s) m)
    as (p & m' & H & Hr & Hp & Ho).
  exists p, m'. simpl. split; [done |]. split; [done |].
  destruct p as [a|]; simpl.
  - destruct Ho as [Hf ->]. split; [| done]. by intros ? [= <-].
  - by split.
Qed.

(** The object at [a] survives a copy made after it. *)
Lemma with_object_lookup p (o o' : object double) objs a :
  objs !! a = Some o' → (∀ b, p = Some b → objs !! b = None) →
  with_object p o objs !! a = Some o'.
Proof.
  intros Ha Hp. destruct p as [b|]; simpl; [| done].
  rewrite lookup_insert_ne; [done |]. intros ->.
  specialize (Hp _ eq_refl). congruence.
Qed.

(** Solves equations between memories built from insertions and
    deletions, given the facts about the addresses in the context. *)
Ltac solve_objects :=
  repeat (rewrite ?lookup_delete, ?lookup_insert;
          repeat case_decide; try congruence; simpl).

Lemma create_user_spec indeterminate id un em (m : memory (object double)) a :
  alloc (requests m) (dom (objects m)) = Some a →
  ∃ p q m',
    create_user alloc indeterminate id (Some un) (Some em) m
    = Returns (Some a, m') ∧
    objects m !! a = None ∧
    (∀ b, p = Some b → b ≠ a ∧ objects m !! b = None) ∧
    (∀ c, q = Some c → c ≠ a ∧ p ≠ Some c ∧ objects m !! c = None) ∧
    objects m'
    = <[a := User_object {| user_id := id; username := p; email := q |}]>
        (with_object q (CharArray em)
           (with_object p (CharArray un) (objects m))).
Proof.
  intros Ha. unfold create_user.
  destruct (allocate_spec alloc Halloc (User_object indeterminate) m)
    as (u & m1 & H1 & Hr1 & Hu & Ho1).
  rewrite Ha in Hu. subst u. destruct Ho1 as [Hfresh Ho1].
  unfold prog_bind at 1. rewrite H1.
  unfold prog_bind at 1.
  rewrite (assign_User_spec a indeterminate)
    by (rewrite Ho1; apply lookup_insert_eq).
  set (m2 := {| objects := _ |}).
  destruct (strdup_spec un m2) as (p & m3 & H3 & Hr3 & Hpf & Ho3).
  unfold prog_bind at 1. rewrite H3.
  unfold prog_bind at 1. erewrite (assign_User_spec a _ _ m3); cycle 1.
  { rewrite Ho3. eapply with_object_lookup; [apply lookup_insert_eq | done]. }
  set (m4 := {| objects := _ |}).
  destruct (strdup_spec em m4) as (q & m5 & H5 & Hr5 & Hqf & Ho5).
  unfold prog_bind at 1. rewrite H5.
  unfold prog_bind at 1. erewrite (assign_User_spec a _ _ m5); cycle 1.
  { rewrite Ho5. eapply with_object_lookup; [apply lookup_insert_eq | done]. }
  exists p, q. eexists. split; [reflexivity |]. split; [done |].
  assert (∀ b, p = Some b → b ≠ a ∧ objects m !! b = None) as Hp.
  { intros b ->. specialize (Hpf _ eq_refl). subst m2. simpl in Hpf.
    rewrite Ho1, !lookup_insert in Hpf. by repeat case_decide. }
  split; [done |].
  assert (∀ c, q = Some c → c ≠ a ∧ p ≠ Some c ∧ objects m !! c = None)
    as Hq.
  { intros c ->. specialize (Hqf _ eq_refl). subst m4. simpl in Hqf.
    rewrite Ho3 in Hqf. subst m2. simpl in Hqf. rewrite Ho1 in Hqf.
    destruct p as [b|]; simpl in Hqf; rewrite !lookup_insert in Hqf;
      repeat case_decide; try done.
    repeat split; try done. congruence. }
  split; [done |].
  simpl. rewrite Ho5. subst m4. simpl. rewrite Ho3. subst m2. simpl.
  rewrite Ho1. apply map_eq. intros k.
  destruct p as [b|], q as [c|]; simpl; rewrite !lookup_insert;
    repeat case_decide; try done; subst;
    try (by destruct (Hp _ eq_refl)); try (by destruct (Hq _ eq_refl)).
Qed.

Lemma free_user_spec id p q un em (objs : gmap addr (object double)) n a :
  objs !! a = None →
  (∀ b, p = Some b → b ≠ a ∧ objs !! b = None) →
  (∀ c, q = Some c → c ≠ a ∧ p ≠ Some c ∧ objs !! c = None) →
  free_user (Some a)
    {| objects :=
         <[a := User_object {| user_id := id; username := p; email := q |}]>
           (with_object q (CharArray em) (with_object p (CharArray un) objs));
       requests := n |}
  = Returns (tt, {| objects := objs; requests := n |}).
Proof.
  intros Ha Hp Hq.
  unfold free_user, prog_bind, load, free. simpl.
  rewrite lookup_insert_eq. simpl.
  destruct p as [b|], q as [c|]; simpl;
    try destruct (Hp _ eq_refl) as [? ?];
    try destruct (Hq _ eq_refl) as (? & ? & ?).
  all: solve_objects.
  all: do 2 f_equal; f_equal; apply map_eq; intros k; solve_objects.
Qed.

Lemma create_game_object_spec indeterminate nm px py pz vx vy vz
    (m : memory (object double)) a :
  alloc (requests m) (dom (objects m)) = Some a →
  ∃ p m',
    create_game_object alloc indeterminate (Some nm) px py pz vx vy vz m
    = Returns (Some a, m') ∧
    objects m !! a = None ∧
    (∀ b, p = Some b → b ≠ a ∧ objects m !! b = None) ∧
    objects m'
    = <[a := GameObject_object
               {| name := p;
                  position := {| x := px; y := py; z := pz |};
                  velocity := {| x := vx; y := vy; z := vz |} |}]>
        (with_object p (CharArray nm) (objects m)).
Proof.
  intros Ha. unfold create_game_object.
  destruct (allocate_spec alloc Halloc (GameObject_object indeterminate) m)
    as (u & m1 & H1 & Hr1 & Hu & Ho1).
  rewrite Ha in Hu. subst u. destruct Ho1 as [Hfresh Ho1].
  unfold prog_bind at 1. rewrite H1.
  destruct (strdup_spec nm m1) as (p & m2 & H2 & Hr2 & Hpf & Ho2).
  unfold prog_bind at 1. rewrite H2.
  unfold prog_bind at 1. erewrite (assign_GameObject_spec a indeterminate);
    cycle 1.
  { rewrite Ho2. eapply with_object_lookup; [| done].
    rewrite Ho1. apply lookup_insert_eq. }
  do 6 (unfold prog_bind at 1;
        erewrite (assign_GameObject_spec a)
          by (simpl; apply lookup_insert_eq); simpl).
  exists p. eexists. split; [reflexivity |]. split; [done |].
  assert (∀ b, p = Some b → b ≠ a ∧ objects m !! b = None) as Hp.
  { intros b ->. specialize (Hpf _ eq_refl).
    rewrite Ho1, !lookup_insert in Hpf. by repeat case_decide. }
  split; [done |].
  simpl. rewrite Ho2, Ho1. apply map_eq. intros k.
  destruct p as [b|]; simpl; rewrite !lookup_insert;
    repeat case_decide; try done; subst; by destruct (Hp _ eq_refl).
Qed.

Lemma free_game_object_spec (g : GameObject_value double) nm
    (objs : gmap addr (object double)) n a :
  objs !! a = None →
  (∀ b, name g = Some b → b ≠ a ∧ objs !! b = None) →
  free_game_object (Some a)
    {| objects :=
         <[a := GameObject_object g]>
           (with_object (name g) (CharArray nm) objs);
       requests := n |}
  = Returns (tt, {| objects := objs; requests := n |}).
Proof.
  intros Ha Hp.
  unfold free_game_object, prog_bind, load, free. simpl.
  rewrite lookup_insert_eq. simpl.
  destruct (name g) as [b|]; simpl;
    try destruct (Hp _ eq_refl) as [? ?].
  all: solve_objects.
  all: do 2 f_equal; f_equal; apply map_eq; intros k; solve_objects.
Qed.

End integration.

Lemma counting_allocator_ok : allocator_ok counting_allocator.
Proof.
  intros n live a. unfold counting_allocator.
  case_decide; [done |]. by intros [= <-].
Qed.

(** X13: what [create_user] builds.  When the allocation of the struct
    succeeds and both string arguments are not null, the function returns
    the new object; its [user_id] is the argument, its [username] and
    [email] are null where the copy could not be allocated and otherwise
    point to copies of the arguments at addresses that were not in use and
    differ from each other and from the struct; no other object changes,
    and nothing of what the memory from [malloc] held is left in the
    result. *)
Theorem X13_create_user_result {double : Type} (alloc : allocator)
    (indeterminate : Integration.User_value) (id : Z) (un em : string)
    (m : memory (Integration.object double)) (a : addr) :
  allocator_ok alloc →
  alloc (requests m) (dom (objects m)) = Some a →
  ∃ p q m',
    Integration.create_user alloc indeterminate id (Some un) (Some em) m
    = Returns (Some a, m') ∧
    objects m !! a = None ∧
    (∀ b, p = Some b → b ≠ a ∧ objects m !! b = None) ∧
    (∀ c, q = Some c → c ≠ a ∧ p ≠ Some c ∧ objects m !! c = None) ∧
    objects m'
    = <[a := Integration.User_object
               {| Integration.user_id := id; Integration.username := p;
                  Integration.email := q |}]>
        (Integration.with_object q (Integration.CharArray em)
           (Integration.with_object p (Integration.CharArray un)
              (objects m))).
Proof. intros Halloc. by apply create_user_spec. Qed.

(** X14: [create_user] checks neither the result of [malloc] nor its
    arguments: it faults when the allocation of the struct fails, and when
    a string argument is the null pointer. *)
Theorem X14_create_user_faults {double : Type} (alloc : allocator)
    (indeterminate : Integration.User_value) (id : Z) (un em : cstring)
    (m : memory (Integration.object double)) :
  allocator_ok alloc →
  alloc (requests m) (dom (objects m)) = None ∨ un = None ∨ em = None →
  Integration.create_user alloc indeterminate id un em m = Fault.
Proof.
  intros Halloc Hcase.
  destruct (alloc (requests m) (dom (objects m))) as [a|] eqn:Ha; cycle 1.
  { unfold Integration.create_user, prog_bind at 1, allocate.
    by rewrite Ha. }
  destruct Hcase as [? | Hnull]; [done |].
  unfold Integration.create_user.
  destruct (allocate_spec alloc Halloc
              (Integration.User_object indeterminate) m)
    as (u & m1 & H1 & Hr1 & Hu & Ho1).
  rewrite Ha in Hu. subst u. destruct Ho1 as [Hfresh Ho1].
  unfold prog_bind at 1. rewrite H1.
  unfold prog_bind at 1.
  rewrite (assign_User_spec a indeterminate)
    by (rewrite Ho1; apply lookup_insert_eq).
  destruct un as [un|]; [| done].
  destruct Hnull as [? | ->]; [done |].
  set (m2 := {| objects := _ |}).
  destruct (strdup_spec alloc Halloc un m2) as (p & m3 & H3 & Hr3 & Hpf & Ho3).
  unfold prog_bind at 1. rewrite H3.
  unfold prog_bind at 1. erewrite (assign_User_spec a _ _ m3); [done |].
  rewrite Ho3. eapply with_object_lookup; [apply lookup_insert_eq | done].
Qed.

(** X15: [free_user] undoes [create_user].  Whatever the allocator does
    after the struct has been allocated, the objects after
    [free_user(create_user(...))] are the objects before: nothing leaks and
    nothing else is freed.  A second [free_user] on the same pointer
    faults, and [free_user(NULL)] does nothing. *)
Theorem X15_free_user_round_trip {double : Type} (alloc : allocator)
    (indeterminate : Integration.User_value) (id : Z) (un em : string)
    (m : memory (Integration.object double)) (a : addr) :
  allocator_ok alloc →
  alloc (requests m) (dom (objects m)) = Some a →
  ∃ m' m'',
    Integration.create_user alloc indeterminate id (Some un) (Some em) m
    = Returns (Some a, m') ∧
    Integration.free_user (Some a) m' = Returns (tt, m'') ∧
    objects m'' = objects m ∧
    Integration.free_user (Some a) m'' = Fault ∧
    Integration.free_user None m'' = Returns (tt, m'').
Proof.
  intros Halloc Ha.
  destruct (create_user_spec alloc Halloc indeterminate id un em m a Ha)
    as (p & q & m' & Hc & Hfresh & Hp & Hq & Ho).
  exists m', {| objects := objects m; requests := requests m' |}.
  split; [done |]. split.
  - destruct m' as [objs' n']. simpl in *. subst objs'.
    by apply free_user_spec.
  - split; [done |]. split; [| done].
    unfold Integration.free_user, prog_bind, load. simpl. by rewrite Hfresh.
Qed.

(** X16: [create_game_object] and [free_game_object].  When the
    allocation of the struct succeeds and the name is not null, the new
    object holds the six coordinates given and a name that is null or a
    copy at an address that was not in use; no other object changes; and
    [free_game_object] on the result leaves the objects as they were before
    the object was created. *)
Theorem X16_game_object_round_trip {double : Type} (alloc : allocator)
    (indeterminate : Integration.GameObject_value double) (nm : string)
    (px py pz vx vy vz : double)
    (m : memory (Integration.object double)) (a : addr) :
  allocator_ok alloc →
  alloc (requests m) (dom (objects m)) = Some a →
  ∃ p m' m'',
    Integration.create_game_object alloc indeterminate (Some nm)
      px py pz vx vy vz m
    = Returns (Some a, m') ∧
    (∀ b, p = Some b → b ≠ a ∧ objects m !! b = None) ∧
    objects m'
    = <[a := Integration.GameObject_object
               {| Integration.name := p;
                  Integration.position :=
                    {| Integration.x := px; Integration.y := py;
                       Integration.z := pz |};
                  Integration.velocity :=
                    {| Integration.x := vx; Integration.y := vy;
                       Integration.z := vz |} |}]>
        (Integration.with_object p (Integration.CharArray nm) (objects m)) ∧
    Integration.free_game_object (Some a) m' = Returns (tt, m'') ∧
    objects m'' = objects m.
Proof.
  intros Halloc Ha.
  destruct (create_game_object_spec alloc Halloc indeterminate nm
              px py pz vx vy vz m a Ha)
    as (p & m' & Hc & Hfresh & Hp & Ho).
  exists p, m', {| objects := objects m; requests := requests m' |}.
  split; [done |]. split; [done |]. split; [done |]. split; [| done].
  destruct m' as [objs' n']. simpl in *. subst objs'.
  by apply (free_game_object_spec
              {| Integration.name := p;
                 Integration.position := _; Integration.velocity := _ |}).
Qed.

Lemma X13_create_user_result_witness :
  ∃ p q m',
    Integration.create_user (double := Z) counting_allocator
      {| Integration.user_id := 0; Integration.username := None;
         Integration.email := None |}
      7 (Some "ada"%string) (Some "ada@example.com"%string) no_objects
    = Returns (Some 1%positive, m') ∧
    objects (no_objects (object := Integration.object Z)) !! 1%positive
    = None ∧
    (∀ b, p = Some b →
          b ≠ 1%positive ∧
          objects (no_objects (object := Integration.object Z)) !! b = None) ∧
    (∀ c, q = Some c →
          c ≠ 1%positive ∧ p ≠ Some c ∧
          objects (no_objects (object := Integration.object Z)) !! c = None) ∧
    objects m'
    = <[1%positive :=
          Integration.User_object
            {| Integration.user_id := 7; Integration.username := p;
               Integration.email := q |}]>
        (Integration.with_object q
           (Integration.CharArray "ada@example.com")
           (Integration.with_object p (Integration.CharArray "ada")
              (objects no_objects))).
Proof.
  apply (X13_create_user_result counting_allocator _ 7 "ada"
           "ada@example.com" no_objects 1%positive counting_allocator_ok).
  by vm_compute.
Defined.

Lemma X14_create_user_faults_witness :
  Integration.create_user (double := Z) counting_allocator
    {| Integration.user_id := 0; Integration.username := None;
       Integration.email := None |}
    7 None (Some "ada@example.com"%string) no_objects
  = Fault.
Proof.
  apply (X14_create_user_faults counting_allocator _ 7 None
           (Some "ada@example.com"%string) no_objects counting_allocator_ok).
  right. by left.
Defined.

Lemma X15_free_user_round_trip_witness :
  ∃ m' m'',
    Integration.create_user (double := Z) counting_allocator
      {| Integration.user_id := 0; Integration.username := None;
         Integration.email := None |}
      7 (Some "ada"%string) (Some "ada@example.com"%string) no_objects
    = Returns (Some 1%positive, m') ∧
    Integration.free_user (Some 1%positive) m' = Returns (tt, m'') ∧
    objects m'' = objects (no_objects (object := Integration.object Z)) ∧
    Integration.free_user (Some 1%positive) m'' = Fault ∧
    Integration.free_user None m'' = Returns (tt, m'').
Proof.
  apply (X15_free_user_round_trip counting_allocator _ 7 "ada"
           "ada@example.com" no_objects 1%positive counting_allocator_ok).
  by vm_compute.
Defined.

Lemma X16_game_object_round_trip_witness :
  ∃ p m' m'',
    Integration.create_game_object (double := Z) counting_allocator
      {| Integration.name := None;
         Integration.position :=
           {| Integration.x := 0; Integration.y := 0; Integration.z := 0 |};
         Integration.velocity :=
           {| Integration.x := 0; Integration.y := 0; Integration.z := 0 |} |}
      (Some "probe"%string) 1 2 3 4 5 6 no_objects
    = Returns (Some 1%positive, m') ∧
    (∀ b, p = Some b →
          b ≠ 1%positive ∧
          objects (no_objects (object := Integration.object Z)) !! b = None) ∧
    objects m'
    = <[1%positive :=
          Integration.GameObject_object
            {| Integration.name := p;
               Integration.position :=
                 {| Integration.x := 1; Integration.y := 2;
                    Integration.z := 3 |};
               Integration.velocity :=
                 {| Integration.x := 4; Integration.y := 5;
                    Integration.z := 6 |} |}]>
        (Integration.with_object p (Integration.CharArray "probe")
           (objects no_objects)) ∧
    Integration.free_game_object (Some 1%positive) m' = Returns (tt, m'') ∧
    objects m'' = objects (no_objects (object := Integration.object Z)).
Proof.
  apply (X16_game_object_round_trip counting_allocator _ "probe"
           1 2 3 4 5 6 no_objects 1%positive counting_allocator_ok).
  by vm_compute.
Defined.

(* ===================================================================== *)
(** ** The helpers of [examples/users/native/helpers.c] *)
(* ===================================================================== *)

Section users.

Import Users.

Context {double : Type} (A : abi) (D : double_arithmetic double)
  (alloc : allocator) (Halloc : allocator_ok alloc).

Lemma element_spec a us (i : nat) u (m : memory (object double)) :
  objects m !! a = Some (User_array us) → us !! i = Some u →
  element (Some a) (Z.of_nat i) m = Returns (u, m).
Proof.
  intros Ha Hi. unfold element, prog_bind, load. rewrite Ha.
  assert (E : (0 <=? Z.of_nat i) = true) by (apply Z.leb_le; lia).
  rewrite E.
  by rewrite Nat2Z.id, Hi.
Qed.

Lemma assign_element_spec a us (i : nat) u f (m : memory (object double)) :
  objects m !! a = Some (User_array us) → us !! i = Some u →
  assign_element (Some a) (Z.of_nat i) f m
  = Returns (tt, {| objects := <[a := User_array (<[i := f u]> us)]> (objects m);
                    requests := requests m |}).
Proof.
  intros Ha Hi. unfold assign_element. unfold prog_bind at 1.
  rewrite (element_spec a us i u) by done.
  unfold prog_bind, load, store. rewrite Ha, Ha. by rewrite Nat2Z.id.
Qed.

Lemma sample_spec samples (i : nat) s (m : memory (object double)) :
  samples !! i = Some s →
  sample samples (Z.of_nat i) m = Returns (Some s, m).
Proof.
  intros Hs. unfold sample.
  assert (E : (0 <=? Z.of_nat i) = true) by (apply Z.leb_le; lia).
  rewrite E.
  by rewrite Nat2Z.id, Hs.
Qed.

Lemma strdup_users_spec (s : string) (m : memory (object double)) :
  ∃ p m',
    strdup alloc CharArray (Some s) m = Returns (p, m') ∧
    requests m' = S (requests m) ∧
    (∀ a, p = Some a → objects m !! a = None) ∧
    objects m' = with_object p (CharArray s) (objects m).
Proof.
  destruct (allocate_spec alloc Halloc (CharArray s) m)
    as (p & m' & H & Hr & Hp & Ho).
  exists p, m'. simpl. split; [done |]. split; [done |].
  destruct p as [a|]; simpl.
  - destruct Ho as [Hf ->]. split; [| done]. by intros ? [= <-].
  - by split.
Qed.

Lemma lookup_with_object p (o : object double) objs b :
  with_object p o objs !! b
  = if decide (p = Some b) then Some o else objs !! b.
Proof.
  destruct p as [c|]; simpl.
  - rewrite lookup_insert. repeat case_decide; congruence.
  - by destruct (decide (None = Some b)).
Qed.

Lemma lookup_without_object p (objs : gmap addr (object double)) b :
  without_object p objs !! b
  = if decide (p = Some b) then None else objs !! b.
Proof.
  destruct p as [c|]; simpl.
  - rewrite lookup_delete. repeat case_decide; congruence.
  - by destruct (decide (None = Some b)).
Qed.

Lemma with_objects_None l (objs : gmap addr (object double)) b :
  with_objects l objs !! b = None ↔ (Some b ∉ l.*1) ∧ objs !! b = None.
Proof.
  induction l as [|[p o] l IH]; simpl.
  - split; [intros ?; split; [apply not_elem_of_nil | done] | by intros [_ ?]].
  - rewrite lookup_with_object, not_elem_of_cons. case_decide as Hp.
    + split; [done | intros [[H _] _]; congruence].
    + rewrite IH. split.
      * intros [H1 H2]. split; [split; [congruence | done] | done].
      * by intros [[_ H1] H2].
Qed.

Lemma allocated_push l p (objs : gmap addr (object double)) :
  allocated l.*1 objs →
  (∀ b, p = Some b → with_objects l objs !! b = None) →
  allocated (p :: l.*1) objs.
Proof.
  intros Hal Hp. split; [| done]. intros b Hb.
  by apply with_objects_None, Hp.
Qed.

Lemma allocated_member (l : list (option addr * object double))
    (objs : gmap addr (object double)) i b o p :
  allocated (p :: l.*1) objs → l !! i = Some (Some b, o) → p ≠ Some b.
Proof.
  intros [Hp _] Hi ->. destruct (Hp _ eq_refl) as [Hn _]. apply Hn.
  eapply list_elem_of_fmap_2'; [by eapply list_elem_of_lookup_2 | done].
Qed.

Lemma with_objects_lookup l (objs : gmap addr (object double)) i b o :
  allocated l.*1 objs → l !! i = Some (Some b, o) →
  with_objects l objs !! b = Some o.
Proof.
  revert i. induction l as [|[p o'] l IH]; intros i Hal Hi; [done |].
  destruct i as [|i]; simpl in *.
  - injection Hi as -> ->. apply lookup_insert_eq.
  - rewrite lookup_with_object. case_decide as Hd.
    + by destruct (allocated_member l objs i b o p).
    + destruct Hal as [_ Hal]. by eapply IH.
Qed.

Lemma with_objects_store l (objs : gmap addr (object double)) i b o o' :
  allocated l.*1 objs → l !! i = Some (Some b, o) →
  <[b := o']> (with_objects l objs)
  = with_objects (<[i := (Some b, o')]> l) objs.
Proof.
  revert i. induction l as [|[p o''] l IH]; intros i Hal Hi; [done |].
  destruct i as [|i]; simpl in *.
  - injection Hi as -> ->. simpl. apply insert_insert_eq.
  - pose proof (allocated_member l objs i b o p Hal Hi) as Hp.
    destruct Hal as [_ Hal]. destruct p as [c|]; simpl.
    + rewrite insert_insert_ne by congruence. f_equal. by eapply IH.
    + by eapply IH.
Qed.

Lemma fst_store (l : list (option addr * object double)) i b o o' :
  l !! i = Some (Some b, o) → (<[i := (Some b, o')]> l).*1 = l.*1.
Proof.
  intros Hi. rewrite list_fmap_insert. simpl. apply list_insert_id.
  by rewrite list_lookup_fmap, Hi.
Qed.

Lemma allocated_delete ps (objs : gmap addr (object double)) i :
  allocated ps objs → allocated (delete i ps) objs.
Proof.
  revert i. induction ps as [|p ps IH]; intros i Hal; [done |].
  destruct Hal as [Hp Hal]. destruct i as [|i]; simpl; [done |].
  split; [| by apply IH]. intros b Hb. destruct (Hp b Hb) as [Hn Hf].
  split; [| done]. intros Hin. apply Hn.
  by eapply list_elem_of_delete_inv.
Qed.

Lemma with_objects_remove l (objs : gmap addr (object double)) i p o :
  allocated l.*1 objs → l !! i = Some (p, o) →
  without_object p (with_objects l objs) = with_objects (delete i l) objs.
Proof.
  revert i. induction l as [|[q o'] l IH]; intros i Hal Hi; [done |].
  destruct i as [|i]; simpl in *.
  - injection Hi as -> ->. destruct Hal as [Hp _].
    destruct p as [b|]; simpl; [| done].
    apply delete_insert_id. apply with_objects_None. by apply Hp.
  - destruct p as [b|]; simpl.
    + pose proof (allocated_member l objs i b o q Hal Hi) as Hq.
      destruct Hal as [_ Hal]. destruct q as [c|]; simpl.
      * rewrite delete_insert_ne by congruence. f_equal.
        by apply (IH i Hal).
      * by apply (IH i Hal).
    + destruct Hal as [_ Hal]. f_equal. by apply (IH i Hal).
Qed.

Lemma allocated_base_insert ps (objs : gmap addr (object double)) c v :
  allocated ps objs → is_Some (objs !! c) → allocated ps (<[c := v]> objs).
Proof.
  intros Hal [w Hc]. induction ps as [|p ps IH]; [done |].
  destruct Hal as [Hp Hal]. split; [| by apply IH].
  intros b Hb. destruct (Hp b Hb) as [Hn Hf]. split; [done |].
  rewrite lookup_insert_ne; [done | congruence].
Qed.

Lemma with_objects_base_insert l (objs : gmap addr (object double)) c v :
  allocated l.*1 objs → is_Some (objs !! c) →
  <[c := v]> (with_objects l objs) = with_objects l (<[c := v]> objs).
Proof.
  intros Hal [w Hc]. induction l as [|[p o] l IH]; [done |].
  destruct Hal as [Hp Hal]. simpl. destruct p as [b|]; simpl.
  - destruct (Hp b eq_refl) as [_ Hf].
    rewrite insert_insert_ne by congruence. f_equal. by apply IH.
  - by apply IH.
Qed.

Lemma with_objects_base_lookup l (objs : gmap addr (object double)) c v :
  allocated l.*1 objs → objs !! c = Some v →
  with_objects l objs !! c = Some v.
Proof.
  intros Hal Hc. induction l as [|[p o] l IH]; [done |].
  destruct Hal as [Hp Hal]. simpl. rewrite lookup_with_object.
  case_decide as Hd; [| by apply IH].
  destruct (Hp c Hd) as [_ Hf]. congruence.
Qed.


Lemma free_spec p (m : memory (object double)) :
  (∀ b, p = Some b → is_Some (objects m !! b)) →
  free p m = Returns (tt, {| objects := without_object p (objects m);
                             requests := requests m |}).
Proof.
  intros Hp. unfold free. destruct p as [b|]; simpl.
  - by destruct (Hp b eq_refl) as [o ->].
  - by destruct m.
Qed.

Lemma with_object_live p (o o' : object double) objs a :
  objs !! a = Some o' → (∀ b, p = Some b → objs !! b = None) →
  with_object p o objs !! a = Some o'.
Proof.
  intros Ha Hp. destruct p as [b|]; simpl; [| done].
  rewrite lookup_insert_ne; [done |]. intros ->.
  specialize (Hp _ eq_refl). congruence.
Qed.

Lemma createUsers_body_spec a us (i : nat) u es ns ds
    (m : memory (object double)) :
  objects m !! a = Some (User_array us) → us !! i = Some u →
  email_samples !! i = Some es → name_samples !! i = Some ns →
  dept_samples !! i = Some ds →
  ∃ e n d m',
    createUsers_body A D alloc (Some a) (Z.of_nat i) m = Returns (tt, m') ∧
    (∀ b, e = Some b → objects m !! b = None) ∧
    (∀ b, n = Some b → with_object e (CharArray es) (objects m) !! b = None) ∧
    (∀ b, d = Some b →
          with_object n (CharArray ns)
            (with_object e (CharArray es) (objects m)) !! b = None) ∧
    requests m' = (requests m + 3)%nat ∧
    objects m'
    = <[a := User_array (<[i := created A D (Z.of_nat i) e n d]> us)]>
        (with_object d (CharArray ds)
           (with_object n (CharArray ns)
              (with_object e (CharArray es) (objects m)))).
Proof.
  intros Ha Hi Hes Hns Hds. unfold createUsers_body.
  unfold prog_bind at 1. rewrite (assign_element_spec a us i u) by done.
  set (m1 := {| objects := _ |}).
  unfold prog_bind at 1. rewrite (sample_spec _ i es) by done.
  destruct (strdup_users_spec es m1) as (e & m2 & H2 & Hr2 & Hef & Ho2).
  unfold prog_bind at 1. rewrite H2.
  assert (Hlen : (i < length us)%nat) by by eapply lookup_lt_Some.
  unfold prog_bind at 1. erewrite (assign_element_spec a _ i _ _ m2); cycle 1.
  { rewrite Ho2. eapply with_object_live; [apply lookup_insert_eq | done]. }
  { by apply list_lookup_insert_eq. }
  set (m3 := {| objects := _ |}).
  unfold prog_bind at 1. rewrite (sample_spec _ i ns) by done.
  destruct (strdup_users_spec ns m3) as (n & m4 & H4 & Hr4 & Hnf & Ho4).
  unfold prog_bind at 1. rewrite H4.
  unfold prog_bind at 1. erewrite (assign_element_spec a _ i _ _ m4); cycle 1.
  { rewrite Ho4. eapply with_object_live; [apply lookup_insert_eq | done]. }
  { apply list_lookup_insert_eq. by rewrite length_insert. }
  set (m5 := {| objects := _ |}).
  unfold prog_bind at 1. erewrite (assign_element_spec a _ i _ _ m5); cycle 1.
  { apply lookup_insert_eq. }
  { apply list_lookup_insert_eq. by rewrite !length_insert. }
  set (m6 := {| objects := _ |}).
  unfold prog_bind at 1. rewrite (sample_spec _ i ds) by done.
  destruct (strdup_users_spec ds m6) as (d & m7 & H7 & Hr7 & Hdf & Ho7).
  unfold prog_bind at 1. rewrite H7.
  unfold prog_bind at 1. erewrite (assign_element_spec a _ i _ _ m7); cycle 1.
  { rewrite Ho7. eapply with_object_live; [apply lookup_insert_eq | done]. }
  { apply list_lookup_insert_eq. by rewrite !length_insert. }
  set (m8 := {| objects := _ |}).
  erewrite (assign_element_spec a _ i _ _ m8); cycle 1.
  { apply lookup_insert_eq. }
  { apply list_lookup_insert_eq. by rewrite !length_insert. }
  exists e, n, d. eexists. split; [reflexivity |].
  assert (He : ∀ b, e = Some b → b ≠ a ∧ objects m !! b = None).
  { intros b ->. specialize (Hef _ eq_refl). subst m1. simpl in Hef.
    rewrite lookup_insert in Hef. by case_decide. }
  assert (Hn : ∀ b, n = Some b →
                    b ≠ a ∧
                    with_object e (CharArray es) (objects m) !! b = None).
  { intros b ->. specialize (Hnf _ eq_refl). subst m3. simpl in Hnf.
    rewrite lookup_insert in Hnf. case_decide; [done |].
    rewrite Ho2 in Hnf. subst m1. simpl in Hnf.
    rewrite !lookup_with_object in *. case_decide; [done |].
    rewrite lookup_insert in Hnf. by case_decide. }
  assert (Hd : ∀ b, d = Some b →
                    b ≠ a ∧
                    with_object n (CharArray ns)
                      (with_object e (CharArray es) (objects m)) !! b
                    = None).
  { intros b ->. specialize (Hdf _ eq_refl). subst m6. simpl in Hdf.
    rewrite lookup_insert in Hdf. case_decide; [done |].
    subst m5. simpl in Hdf. rewrite lookup_insert in Hdf.
    case_decide; [done |].
    rewrite Ho4 in Hdf. subst m3. simpl in Hdf.
    rewrite !lookup_with_object in *. case_decide; [done |].
    rewrite lookup_insert in Hdf. case_decide; [done |].
    rewrite Ho2 in Hdf. subst m1. simpl in Hdf.
    rewrite !lookup_with_object in *. case_decide; [done |].
    rewrite lookup_insert in Hdf. by case_decide. }
  split; [intros b Hb; by destruct (He b Hb) |].
  split; [intros b Hb; by destruct (Hn b Hb) |].
  split; [intros b Hb; by destruct (Hd b Hb) |].
  split.
  { simpl. rewrite Hr7. subst m6 m5. simpl. rewrite Hr4. subst m3. simpl.
    rewrite Hr2. subst m1. simpl. lia. }
  simpl. rewrite Ho7. subst m6 m5. simpl. rewrite Ho4. subst m3. simpl.
  rewrite Ho2. subst m1. simpl.
  rewrite !list_insert_insert_eq.
  unfold created. simpl.
  destruct u as [uid ue [un ul ud] ub]. simpl.
  apply map_eq. intros k.
  rewrite ?lookup_insert, ?lookup_with_object.
  repeat (rewrite ?lookup_insert, ?lookup_with_object; case_decide);
    try done; subst;
    try (by destruct (He _ eq_refl)); try (by destruct (Hn _ eq_refl));
    try (by destruct (Hd _ eq_refl)).
Qed.

(** The loop body on a memory that is given by the objects allocated so
    far. *)
Lemma createUsers_body_chain a us (i : nat) u es ns ds l j objs
    (m : memory (object double)) :
  objects m = with_objects l objs → allocated l.*1 objs →
  l !! j = Some (Some a, User_array us) → us !! i = Some u →
  email_samples !! i = Some es → name_samples !! i = Some ns →
  dept_samples !! i = Some ds →
  ∃ e n d m',
    createUsers_body A D alloc (Some a) (Z.of_nat i) m = Returns (tt, m') ∧
    requests m' = (requests m + 3)%nat ∧
    allocated (d :: n :: e :: l.*1) objs ∧
    objects m'
    = with_objects
        ((d, CharArray ds) :: (n, CharArray ns) :: (e, CharArray es)
         :: <[j := (Some a,
                    User_array (<[i := created A D (Z.of_nat i) e n d]> us))]>
              l) objs.
Proof.
  intros Hm Hal Hj Hi Hes Hns Hds.
  destruct (createUsers_body_spec a us i u es ns ds m)
    as (e & n & d & m' & Hb & He & Hn & Hd & Hr & Ho); try done.
  { rewrite Hm. by eapply with_objects_lookup. }
  exists e, n, d, m'. split; [done |]. split; [done |].
  rewrite Hm in He, Hn, Hd, Ho.
  pose proof (allocated_push l e objs Hal He) as Hal1.
  pose proof (allocated_push ((e, CharArray es) :: l) n objs Hal1 Hn) as Hal2.
  pose proof (allocated_push ((n, CharArray ns) :: (e, CharArray es) :: l)
                d objs Hal2 Hd) as Hal3.
  split; [done |].
  rewrite Ho.
  by rewrite (with_objects_store
                ((d, CharArray ds) :: (n, CharArray ns) :: (e, CharArray es)
                 :: l) objs (S (S (S j))) a (User_array us)).
Qed.

Lemma createUsers_loop_spec a (m : memory (object double)) :
  alloc (requests m) (dom (objects m)) = Some a →
  ∃ e0 n0 d0 e1 n1 d1 m1 m3,
    allocate alloc (User_array (replicate 2 (zeroed D))) m
    = Returns (Some a, m1) ∧
    for_range 0 2 (createUsers_body A D alloc (Some a)) m1
    = Returns (tt, m3) ∧
    allocated [d1; n1; e1; d0; n0; e0; Some a] (objects m) ∧
    requests m3 = (requests m + 7)%nat ∧
    objects m3
    = with_objects (createUsers_objects A D a e0 n0 d0 e1 n1 d1) (objects m).
Proof.
  intros Ha.
  destruct (allocate_spec alloc Halloc
              (User_array (replicate 2 (zeroed D))) m)
    as (p & m1 & H1 & Hr1 & Hp & Ho1).
  rewrite Ha in Hp. subst p. destruct Ho1 as [Hfresh Ho1].
  assert (Hal0 : allocated [Some a] (objects m)).
  { split; [| done]. intros b [= <-]. split; [apply not_elem_of_nil | done]. }
  destruct (createUsers_body_chain a (replicate 2 (zeroed D)) 0 (zeroed D)
              "ada@example.com" "Ada Lovelace" "Mathematics"
              [(Some a, User_array (replicate 2 (zeroed D)))] 0 (objects m) m1)
    as (e0 & n0 & d0 & m2 & H2 & Hr2 & Hal2 & Ho2); try done.
  destruct (createUsers_body_chain a
              [created A D 0 e0 n0 d0; zeroed D] 1 (zeroed D)
              "alan@example.net" "Alan Turing" "Computer Science"
              [(d0, CharArray "Mathematics"); (n0, CharArray "Ada Lovelace");
               (e0, CharArray "ada@example.com");
               (Some a, User_array [created A D 0 e0 n0 d0; zeroed D])]
              3 (objects m) m2 Ho2)
    as (e1 & n1 & d1 & m3 & H3 & Hr3 & Hal3 & Ho3); try done.
  exists e0, n0, d0, e1, n1, d1, m1, m3.
  split; [done |]. split.
  { simpl. unfold prog_bind at 1. change 0 with (Z.of_nat 0) at 1.
    rewrite H2. unfold prog_bind. change (0 + 1) with (Z.of_nat 1).
    by rewrite H3. }
  split; [done |]. split; [lia | done].
Qed.


Lemma createUsers_spec a c v (m : memory (object double)) :
  alloc (requests m) (dom (objects m)) = Some a →
  objects m !! c = Some (SizeT_object v) →
  ∃ e0 n0 d0 e1 n1 d1 m',
    createUsers A D alloc (Some c) m = Returns (Some a, m') ∧
    allocated [d1; n1; e1; d0; n0; e0; Some a] (objects m) ∧
    requests m' = (requests m + 7)%nat ∧
    objects m'
    = with_objects (createUsers_objects A D a e0 n0 d0 e1 n1 d1)
        (<[c := SizeT_object 2]> (objects m)).
Proof.
  intros Ha Hc.
  destruct (createUsers_loop_spec a m Ha)
    as (e0 & n0 & d0 & e1 & n1 & d1 & m1 & m3 & H1 & H3 & Hal & Hr & Ho).
  exists e0, n0, d0, e1, n1, d1.
  exists {| objects := <[c := SizeT_object 2]> (objects m3);
            requests := requests m3 |}.
  split.
  { unfold createUsers. change (Z.to_nat (2 - 0)) with 2%nat.
    change (Z.to_nat 2) with 2%nat.
    unfold prog_bind at 1. rewrite H1.
    unfold prog_bind at 1. rewrite H3.
    unfold assign_size_t. unfold prog_bind, load, store, prog_ret.
    assert (Hc3 : objects m3 !! c = Some (SizeT_object v)).
    { rewrite Ho.
      apply (with_objects_base_lookup
               (createUsers_objects A D a e0 n0 d0 e1 n1 d1)); done. }
    rewrite Hc3. cbn beta iota. by rewrite Hc3. }
  split; [done |]. split; [done |]. simpl. rewrite Ho.
  by apply (with_objects_base_insert
              (createUsers_objects A D a e0 n0 d0 e1 n1 d1)).
Qed.



Lemma element_chain a us (i : nat) u l j objs (m : memory (object double)) :
  objects m = with_objects l objs → allocated l.*1 objs →
  l !! j = Some (Some a, User_array us) → us !! i = Some u →
  element (Some a) (Z.of_nat i) m = Returns (u, m).
Proof.
  intros Hm Hal Hj Hi. apply (element_spec a us); [| done].
  rewrite Hm. by eapply with_objects_lookup.
Qed.

Lemma free_chain l objs i p o (m : memory (object double)) :
  objects m = with_objects l objs → allocated l.*1 objs →
  l !! i = Some (p, o) →
  free p m = Returns (tt, {| objects := with_objects (delete i l) objs;
                             requests := requests m |}).
Proof.
  intros Hm Hal Hi. rewrite free_spec.
  - rewrite Hm. by rewrite (with_objects_remove l objs i p o).
  - intros b ->. rewrite Hm.
    by rewrite (with_objects_lookup l objs i b o).
Qed.

(** The body of the loop of [freeUsers] on an element whose strings are
    among the objects allocated. *)
Lemma freeUsers_body_chain a us (i : nat) u l j je jn jd j1 j2 oe on od objs
    (m : memory (object double)) :
  objects m = with_objects l objs → allocated l.*1 objs →
  l !! j = Some (Some a, User_array us) → us !! i = Some u →
  l !! je = Some (email u, oe) →
  delete je l !! j1 = Some (Some a, User_array us) →
  delete je l !! jn = Some (full_name (details u), on) →
  delete jn (delete je l) !! j2 = Some (Some a, User_array us) →
  delete jn (delete je l) !! jd = Some (department (details u), od) →
  freeUsers_body (Some a) (Z.of_nat i) m
  = Returns (tt, {| objects :=
                      with_objects (delete jd (delete jn (delete je l))) objs;
                    requests := requests m |}).
Proof.
  intros Hm Hal Hj Hi Hje Hj1 Hjn Hj2 Hjd. unfold freeUsers_body.
  unfold prog_bind at 1. rewrite (element_chain a us i u l j objs) by done.
  unfold prog_bind at 1. rewrite (free_chain l objs je _ oe) by done.
  assert (Hal1 : allocated (delete je l).*1 objs).
  { rewrite list_fmap_delete. by apply allocated_delete. }
  unfold prog_bind at 1.
  rewrite (element_chain a us i u (delete je l) j1 objs) by done.
  unfold prog_bind at 1.
  rewrite (free_chain (delete je l) objs jn _ on) by done.
  assert (Hal2 : allocated (delete jn (delete je l)).*1 objs).
  { rewrite list_fmap_delete. by apply allocated_delete. }
  unfold prog_bind at 1.
  rewrite (element_chain a us i u (delete jn (delete je l)) j2 objs) by done.
  by rewrite (free_chain (delete jn (delete je l)) objs jd _ od).
Qed.

Lemma freeUsers_created a e0 n0 d0 e1 n1 d1 objs (m : memory (object double)) :
  objects m = with_objects (createUsers_objects A D a e0 n0 d0 e1 n1 d1) objs →
  allocated [d1; n1; e1; d0; n0; e0; Some a] objs →
  freeUsers (Some a) 2 m
  = Returns (tt, {| objects := objs; requests := requests m |}).
Proof.
  intros Hm Hal.
  pose proof (freeUsers_body_chain a
                [created A D 0 e0 n0 d0; created A D 1 e1 n1 d1] 0
                (created A D 0 e0 n0 d0)
                (createUsers_objects A D a e0 n0 d0 e1 n1 d1)
                6 5 4 3 5 4 _ _ _ objs m Hm Hal
                eq_refl eq_refl eq_refl eq_refl eq_refl eq_refl eq_refl)
    as Hb0.
  set (m1 := {| objects := _ |}) in Hb0.
  assert (Hal1 : allocated [d1; n1; e1; Some a] objs).
  { by apply (allocated_delete _ _ 3), (allocated_delete _ _ 3),
      (allocated_delete _ _ 3) in Hal. }
  pose proof (freeUsers_body_chain a
                [created A D 0 e0 n0 d0; created A D 1 e1 n1 d1] 1
                (created A D 1 e1 n1 d1)
                _ 3 2 1 0 2 1 _ _ _ objs m1 eq_refl Hal1
                eq_refl eq_refl eq_refl eq_refl eq_refl eq_refl eq_refl)
    as Hb1.
  set (m2 := {| objects := _ |}) in Hb1.
  assert (Hal2 : allocated [Some a] objs).
  { by apply (allocated_delete _ _ 0), (allocated_delete _ _ 0),
      (allocated_delete _ _ 0) in Hal1. }
  pose proof (free_chain _ objs 0 (Some a) _ m2 eq_refl Hal2 eq_refl) as Hf.
  unfold freeUsers. change (Z.to_nat (2 - 0)) with 2%nat.
  cbn [for_range]. change (Z.of_nat 0) with 0 in Hb0.
  change (Z.of_nat 1) with (0 + 1) in Hb1.
  unfold prog_bind at 1. unfold prog_bind at 1. rewrite Hb0.
  unfold prog_bind at 1. rewrite Hb1. unfold prog_ret. exact Hf.
Qed.

Lemma allocated_fresh ps (objs : gmap addr (object double)) b :
  allocated ps objs → Some b ∈ ps → objs !! b = None.
Proof.
  induction ps as [|p ps IH]; intros Hal Hin; [by apply elem_of_nil in Hin |].
  destruct Hal as [Hp Hal].
  apply elem_of_cons in Hin as [<-|Hin]; [| by apply IH].
  by destruct (Hp b eq_refl).
Qed.

(** [freeUsers] with the counts 1 and 0 on what [createUsers] made. *)
Lemma freeUsers_created_one a e0 n0 d0 e1 n1 d1 objs
    (m : memory (object double)) :
  objects m = with_objects (createUsers_objects A D a e0 n0 d0 e1 n1 d1) objs →
  allocated [d1; n1; e1; d0; n0; e0; Some a] objs →
  freeUsers (Some a) 1 m
  = Returns (tt, {| objects :=
                      with_objects
                        [(d1, CharArray "Computer Science");
                         (n1, CharArray "Alan Turing");
                         (e1, CharArray "alan@example.net")] objs;
                    requests := requests m |}).
Proof.
  intros Hm Hal.
  pose proof (freeUsers_body_chain a
                [created A D 0 e0 n0 d0; created A D 1 e1 n1 d1] 0
                (created A D 0 e0 n0 d0)
                (createUsers_objects A D a e0 n0 d0 e1 n1 d1)
                6 5 4 3 5 4 _ _ _ objs m Hm Hal
                eq_refl eq_refl eq_refl eq_refl eq_refl eq_refl eq_refl)
    as Hb0.
  set (m1 := {| objects := _ |}) in Hb0.
  assert (Hal1 : allocated [d1; n1; e1; Some a] objs).
  { by apply (allocated_delete _ _ 3), (allocated_delete _ _ 3),
      (allocated_delete _ _ 3) in Hal. }
  pose proof (free_chain _ objs 3 (Some a) _ m1 eq_refl Hal1 eq_refl) as Hf.
  unfold freeUsers. change (Z.to_nat (1 - 0)) with 1%nat.
  cbn [for_range]. change (Z.of_nat 0) with 0 in Hb0.
  unfold prog_bind at 1. unfold prog_bind at 1. rewrite Hb0.
  unfold prog_ret. exact Hf.
Qed.

Lemma freeUsers_created_none a e0 n0 d0 e1 n1 d1 objs
    (m : memory (object double)) :
  objects m = with_objects (createUsers_objects A D a e0 n0 d0 e1 n1 d1) objs →
  allocated [d1; n1; e1; d0; n0; e0; Some a] objs →
  freeUsers (Some a) 0 m
  = Returns (tt, {| objects :=
                      with_objects
                        [(d1, CharArray "Computer Science");
                         (n1, CharArray "Alan Turing");
                         (e1, CharArray "alan@example.net");
                         (d0, CharArray "Mathematics");
                         (n0, CharArray "Ada Lovelace");
                         (e0, CharArray "ada@example.com")] objs;
                    requests := requests m |}).
Proof.
  intros Hm Hal.
  pose proof (free_chain _ objs 6 (Some a) _ m Hm Hal eq_refl) as Hf.
  unfold freeUsers. change (Z.to_nat (0 - 0)) with 0%nat.
  cbn [for_range]. unfold prog_bind, prog_ret. exact Hf.
Qed.

End users.

(** X17: [createUsers].  When [calloc] returns an array and [count]
    points to a [size_t], the function makes seven allocation requests and
    returns the array; the two elements hold the ids 1000 and 1001, the
    levels 1 and 2 and, for each of the six strings, the null pointer or a
    copy of the sample at an address that was not in use before and that no
    other pointer has; [*count] is 2 and no other object changes. *)
Theorem X17_createUsers_result {double : Type} (A : abi)
    (D : Users.double_arithmetic double) (alloc : allocator)
    (m : memory (Users.object double)) (a c : addr) (v : Z) :
  allocator_ok alloc →
  2 ≤ sizeof_scalar A SizeT →
  alloc (requests m) (dom (objects m)) = Some a →
  objects m !! c = Some (Users.SizeT_object v) →
  ∃ e0 n0 d0 e1 n1 d1 m',
    Users.createUsers A D alloc (Some c) m = Returns (Some a, m') ∧
    requests m' = (requests m + 7)%nat ∧
    Users.allocated [d1; n1; e1; d0; n0; e0; Some a] (objects m) ∧
    objects m'
    = Users.with_objects
        (Users.createUsers_objects A D a e0 n0 d0 e1 n1 d1)
        (<[c := Users.SizeT_object 2]> (objects m)) ∧
    Users.id (Users.created A D 0 e0 n0 d0) = 1000 ∧
    Users.id (Users.created A D 1 e1 n1 d1) = 1001 ∧
    Users.level (Users.details (Users.created A D 0 e0 n0 d0)) = 1 ∧
    Users.level (Users.details (Users.created A D 1 e1 n1 d1)) = 2.
Proof.
  intros Halloc Hsize Ha Hc.
  destruct (createUsers_spec A D alloc Halloc a c v m Ha Hc)
    as (e0 & n0 & d0 & e1 & n1 & d1 & m' & Hr & Hal & Hreq & Ho).
  exists e0, n0, d0, e1, n1, d1, m'.
  do 4 (split; [done |]).
  assert (Hmod : 2 ^ 16 ≤ size_t_modulus A).
  { unfold size_t_modulus. apply Z.pow_le_mono_r; lia. }
  assert (Hsmall : ∀ x, 0 ≤ x < 2 ^ 16 →
                        Users.to_uint32 (to_size_t A x) = x).
  { intros x Hx. unfold Users.to_uint32, to_size_t.
    rewrite (Z.mod_small x) by lia. apply Z.mod_small. lia. }
  simpl. rewrite !Hsmall; [done | lia..].
Qed.


(** X19: [freeUsers] undoes [createUsers].  Called with the array and
    the count that [createUsers] gave, whether or not some [strdup] failed,
    it returns and leaves exactly the objects that were there before, with
    2 in [*count]. *)
Theorem X19_users_round_trip {double : Type} (A : abi)
    (D : Users.double_arithmetic double) (alloc : allocator)
    (m : memory (Users.object double)) (a c : addr) (v : Z) :
  allocator_ok alloc →
  alloc (requests m) (dom (objects m)) = Some a →
  objects m !! c = Some (Users.SizeT_object v) →
  ∃ m' m'',
    Users.createUsers A D alloc (Some c) m = Returns (Some a, m') ∧
    objects m' !! c = Some (Users.SizeT_object 2) ∧
    Users.freeUsers (Some a) 2 m' = Returns (tt, m'') ∧
    objects m'' = <[c := Users.SizeT_object 2]> (objects m) ∧
    Users.freeUsers (Some a) 2 m'' = Fault.
Proof.
  intros Halloc Ha Hc.
  destruct (createUsers_spec A D alloc Halloc a c v m Ha Hc)
    as (e0 & n0 & d0 & e1 & n1 & d1 & m' & Hr & Hal & Hreq & Ho).
  assert (Hal' : Users.allocated [d1; n1; e1; d0; n0; e0; Some a]
                   (<[c := Users.SizeT_object 2]> (objects m))).
  { apply allocated_base_insert; [done | by eexists]. }
  exists m'. eexists. split; [done |]. split.
  { rewrite Ho.
    apply (with_objects_base_lookup
             (Users.createUsers_objects A D a e0 n0 d0 e1 n1 d1));
      [done | apply lookup_insert_eq]. }
  split; [by eapply freeUsers_created |]. split; [done |].
  assert (Hgone : <[c := Users.SizeT_object 2]> (objects m) !! a = None).
  { destruct Hal' as (_ & _ & _ & _ & _ & _ & Hfa & _).
    by destruct (Hfa a eq_refl). }
  unfold Users.freeUsers. change (Z.to_nat (2 - 0)) with 2%nat.
  cbn [Users.for_range].
  unfold Users.freeUsers_body, Users.element. unfold prog_bind, load.
  cbn [objects]. by rewrite Hgone.
Qed.

(** X20: [freeUsers] frees the strings of the first [count] elements
    only.  Called with the count 1 or 0 on the array that [createUsers]
    made, it returns and frees the array; the copies of the strings of the
    elements beyond the count stay allocated, at addresses that were not in
    use before [createUsers]: with the array gone, they are leaked. *)
Theorem X20_freeUsers_short_count_leaks {double : Type} (A : abi)
    (D : Users.double_arithmetic double) (alloc : allocator)
    (m : memory (Users.object double)) (a c : addr) (v : Z) :
  allocator_ok alloc →
  alloc (requests m) (dom (objects m)) = Some a →
  objects m !! c = Some (Users.SizeT_object v) →
  ∃ e0 n0 d0 e1 n1 d1 m' m1 m0,
    Users.createUsers A D alloc (Some c) m = Returns (Some a, m') ∧
    Users.freeUsers (Some a) 1 m' = Returns (tt, m1) ∧
    objects m1
    = Users.with_objects
        [(d1, Users.CharArray "Computer Science");
         (n1, Users.CharArray "Alan Turing");
         (e1, Users.CharArray "alan@example.net")]
        (<[c := Users.SizeT_object 2]> (objects m)) ∧
    (∀ b o,
       (Some b, o) ∈ [(d1, Users.CharArray "Computer Science");
                      (n1, Users.CharArray "Alan Turing");
                      (e1, Users.CharArray (double := double)
                             "alan@example.net")] →
       objects m1 !! b = Some o ∧ objects m !! b = None) ∧
    objects m1 !! a = None ∧
    Users.freeUsers (Some a) 0 m' = Returns (tt, m0) ∧
    objects m0
    = Users.with_objects
        [(d1, Users.CharArray "Computer Science");
         (n1, Users.CharArray "Alan Turing");
         (e1, Users.CharArray "alan@example.net");
         (d0, Users.CharArray "Mathematics");
         (n0, Users.CharArray "Ada Lovelace");
         (e0, Users.CharArray "ada@example.com")]
        (<[c := Users.SizeT_object 2]> (objects m)).
Proof.
  intros Halloc Ha Hc.
  destruct (createUsers_spec A D alloc Halloc a c v m Ha Hc)
    as (e0 & n0 & d0 & e1 & n1 & d1 & m' & Hr & Hal & Hreq & Ho).
  assert (Hal' : Users.allocated [d1; n1; e1; d0; n0; e0; Some a]
                   (<[c := Users.SizeT_object 2]> (objects m))).
  { apply allocated_base_insert; [done | by eexists]. }
  assert (Hal3 : Users.allocated [d1; n1; e1]
                   (<[c := Users.SizeT_object 2]> (objects m))).
  { by apply (allocated_delete _ _ 3), (allocated_delete _ _ 3),
      (allocated_delete _ _ 3), (allocated_delete _ _ 3) in Hal'. }
  exists e0, n0, d0, e1, n1, d1, m'. eexists. eexists.
  split; [done |].
  split; [by eapply freeUsers_created_one |].
  split; [done |]. split.
  { intros b o Hin. split.
    - apply list_elem_of_lookup in Hin as [i Hi]. cbn [objects].
      by apply (with_objects_lookup
                  [(d1, Users.CharArray "Computer Science");
                   (n1, Users.CharArray "Alan Turing");
                   (e1, Users.CharArray "alan@example.net")] _ i).
    - apply (allocated_fresh [d1; n1; e1; d0; n0; e0; Some a]); [done |].
      repeat (apply elem_of_cons in Hin as [[= <- _]|Hin];
              [repeat constructor |]).
      by apply elem_of_nil in Hin. }
  split.
  { cbn [objects]. apply with_objects_None. split.
    - destruct Hal' as (Hd1 & Hn1 & He1 & _). simpl.
      intros Hin.
      apply elem_of_cons in Hin as [E|Hin];
        [symmetry in E; destruct (Hd1 a E) as [Hn _]; apply Hn;
         repeat constructor |].
      apply elem_of_cons in Hin as [E|Hin];
        [symmetry in E; destruct (Hn1 a E) as [Hn _]; apply Hn;
         repeat constructor |].
      apply elem_of_cons in Hin as [E|Hin];
        [symmetry in E; destruct (He1 a E) as [Hn _]; apply Hn;
         repeat constructor |].
      by apply elem_of_nil in Hin.
    - apply (allocated_fresh [d1; n1; e1; d0; n0; e0; Some a]); [done |].
      repeat constructor. }
  split; [by eapply freeUsers_created_none | done].
Qed.

Lemma X17_createUsers_result_witness :
  ∃ e0 n0 d0 e1 n1 d1 m',
    Users.createUsers x86_64 hundredths counting_allocator
      (Some 100%positive) one_size_t
    = Returns (Some 1%positive, m') ∧
    requests m' = (requests one_size_t + 7)%nat ∧
    Users.allocated [d1; n1; e1; d0; n0; e0; Some 1%positive]
      (objects one_size_t) ∧
    objects m'
    = Users.with_objects
        (Users.createUsers_objects x86_64 hundredths 1%positive
           e0 n0 d0 e1 n1 d1)
        (<[100%positive := Users.SizeT_object 2]> (objects one_size_t)) ∧
    Users.id (Users.created x86_64 hundredths 0 e0 n0 d0) = 1000 ∧
    Users.id (Users.created x86_64 hundredths 1 e1 n1 d1) = 1001 ∧
    Users.level (Users.details (Users.created x86_64 hundredths 0 e0 n0 d0))
    = 1 ∧
    Users.level (Users.details (Users.created x86_64 hundredths 1 e1 n1 d1))
    = 2.
Proof.
  apply (X17_createUsers_result x86_64 hundredths counting_allocator
           one_size_t 1%positive 100%positive 0 counting_allocator_ok).
  - by vm_compute.
  - by vm_compute.
  - by vm_compute.
Defined.


Lemma X19_users_round_trip_witness :
  ∃ m' m'',
    Users.createUsers x86_64 hundredths counting_allocator
      (Some 100%positive) one_size_t
    = Returns (Some 1%positive, m') ∧
    objects m' !! 100%positive = Some (Users.SizeT_object 2) ∧
    Users.freeUsers (Some 1%positive) 2 m' = Returns (tt, m'') ∧
    objects m''
    = <[100%positive := Users.SizeT_object 2]> (objects one_size_t) ∧
    Users.freeUsers (Some 1%positive) 2 m'' = Fault.
Proof.
  apply (X19_users_round_trip x86_64 hundredths counting_allocator
           one_size_t 1%positive 100%positive 0 counting_allocator_ok).
  - by vm_compute.
  - by vm_compute.
Defined.

Lemma X20_freeUsers_short_count_leaks_witness :
  ∃ e0 n0 d0 e1 n1 d1 m' m1 m0,
    Users.createUsers x86_64 hundredths counting_allocator
      (Some 100%positive) one_size_t
    = Returns (Some 1%positive, m') ∧
    Users.freeUsers (Some 1%positive) 1 m' = Returns (tt, m1) ∧
    objects m1
    = Users.with_objects
        [(d1, Users.CharArray "Computer Science");
         (n1, Users.CharArray "Alan Turing");
         (e1, Users.CharArray "alan@example.net")]
        (<[100%positive := Users.SizeT_object 2]> (objects one_size_t)) ∧
    (∀ b o,
       (Some b, o) ∈ [(d1, Users.CharArray "Computer Science");
                      (n1, Users.CharArray "Alan Turing");
                      (e1, Users.CharArray (double := Z)
                             "alan@example.net")] →
       objects m1 !! b = Some o ∧ objects one_size_t !! b = None) ∧
    objects m1 !! 1%positive = None ∧
    Users.freeUsers (Some 1%positive) 0 m' = Returns (tt, m0) ∧
    objects m0
    = Users.with_objects
        [(d1, Users.CharArray "Computer Science");
         (n1, Users.CharArray "Alan Turing");
         (e1, Users.CharArray "alan@example.net");
         (d0, Users.CharArray "Mathematics");
         (n0, Users.CharArray "Ada Lovelace");
         (e0, Users.CharArray "ada@example.com")]
        (<[100%positive := Users.SizeT_object 2]> (objects one_size_t)).
Proof.
  apply (X20_freeUsers_short_count_leaks x86_64 hundredths
           counting_allocator one_size_t 1%positive 100%positive 0
           counting_allocator_ok).
  - by vm_compute.
  - by vm_compute.
Defined.
